(** * solc-typed-ast: the AST writer (src/ast/writing/writer.ts)

    A shallow embedding of [ASTWriter] and [YulWriter]: the description
    builder [desc], the flattening pass [descToSourceString] with its
    source map, and the two registries with their lookup failures. *)

From Stdlib Require Import ZArith Lia.
From Stdlib Require Import Strings.String Strings.Ascii.
From stdpp Require Import gmap strings list fin_maps.

Local Open Scope Z_scope.

(** ** Text

    A JavaScript string is the sequence of its UTF-16 code units.
    Concatenation ([+], [+=]) appends the code units, so that a high
    surrogate that ends one string and a low surrogate that starts the next
    become one character of the concatenation. *)

Definition char := N.
Definition jsString := list char.

(** A literal of the source, written as an ASCII string. *)
Definition str (s : string) : jsString :=
  (λ a, N_of_ascii a) <$> list_ascii_of_string s.
Arguments str s%_string : simpl never.

Definition byte := N.

(** The UTF-8 encoding of one code point: 1 to 4 bytes. *)
Definition utf8_char (c : char) : list byte :=
  (if c <? 0x80 then [c]
   else if c <? 0x800 then
     [N.lor 0xC0 (N.shiftr c 6); N.lor 0x80 (N.land c 0x3F)]
   else if c <? 0x10000 then
     [N.lor 0xE0 (N.shiftr c 12);
      N.lor 0x80 (N.land (N.shiftr c 6) 0x3F);
      N.lor 0x80 (N.land c 0x3F)]
   else
     [N.lor 0xF0 (N.shiftr c 18);
      N.lor 0x80 (N.land (N.shiftr c 12) 0x3F);
      N.lor 0x80 (N.land (N.shiftr c 6) 0x3F);
      N.lor 0x80 (N.land c 0x3F)])%N.

Definition isHighSurrogate (c : char) : bool := ((0xD800 <=? c) && (c <=? 0xDBFF))%N.
Definition isLowSurrogate (c : char) : bool := ((0xDC00 <=? c) && (c <=? 0xDFFF))%N.

(** The code point that a surrogate pair stands for. *)
Definition pairCodePoint (high low : char) : N :=
  (0x10000 + (high - 0xD800) * 0x400 + (low - 0xDC00))%N.

(** U+FFFD, which takes the place of a surrogate without its partner. *)
Definition replacement : list byte := [0xEF; 0xBF; 0xBD]%N.

(** The UTF-8 bytes of a text: a high surrogate followed by a low one is one
    code point of 4 bytes, any other surrogate is replaced, and every other
    code unit is a code point of its own. *)
Fixpoint utf8 (s : jsString) : list byte :=
  match s with
  | [] => []
  | c :: rest =>
      if isHighSurrogate c then
        match rest with
        | d :: rest' =>
            if isLowSurrogate d then utf8_char (pairCodePoint c d) ++ utf8 rest'
            else replacement ++ utf8 rest
        | [] => replacement ++ utf8 rest
        end
      else if isLowSurrogate c then replacement ++ utf8 rest
      else utf8_char c ++ utf8 rest
  end.

(** Modelled from the spec: [strByteLen] is imported from ../../misc, which
    is not among the sources. The spec describes it as the boundary function
    that, given text, returns its length in the encoding's byte units (not its
    character count); the encoding is taken to be UTF-8. *)
Definition strByteLen (s : jsString) : Z := Z.of_nat (length (utf8 s)).

(** The bytes of [bs] from byte offset [start], [len] bytes long. *)
Definition byteSlice (bs : list byte) (start len : Z) : list byte :=
  take (Z.to_nat len) (drop (Z.to_nat start) bs).

(** The text ends with a high surrogate; the text starts with a low one. *)
Definition endsHigh (s : jsString) : bool :=
  match last s with
  | Some c => isHighSurrogate c
  | None => false
  end.

Definition startsLow (s : jsString) : bool :=
  match s with
  | c :: _ => isLowSurrogate c
  | [] => false
  end.

(** No [source += fragment] of the sequence joins a high surrogate at the
    end of what was emitted with a low surrogate at the start of the
    fragment. *)
Fixpoint noSplit (emitted : jsString) (fragments : list jsString) : bool :=
  match fragments with
  | [] => true
  | fragment :: rest =>
      negb (endsHigh emitted && startsLow fragment) && noSplit (emitted ++ fragment) rest
  end.

(** ** Errors and results

    The writers throw [new Error(message)]; the calls they make while they
    build the message may throw errors of their own, [TypeError] among them.
    A call returns, throws, or runs out of the fuel that bounds the depth of
    the recursion through the strategies. *)

Inductive JSError :=
  | Error (message : jsString)
  | TypeError (message : jsString).

Definition message (e : JSError) : jsString :=
  match e with
  | Error m | TypeError m => m
  end.

Global Instance JSError_eq_dec : EqDecision JSError.
Proof. solve_decision. Defined.

Global Instance JSError_countable : Countable JSError.
Proof.
  refine (inj_countable'
            (λ e, match e with Error m => inl m | TypeError m => inr m end)
            (λ t, match t with inl m => Error m | inr m => TypeError m end) _).
  by intros [].
Defined.

Inductive Outcome (A : Type) :=
  | Returns (a : A)
  | Throws (e : JSError)
  | OutOfFuel.
Arguments Returns {A} a.
Arguments Throws {A} e.
Arguments OutOfFuel {A}.

Definition bindOutcome {A B} (o : Outcome A) (k : A → Outcome B) : Outcome B :=
  match o with
  | Returns a => k a
  | Throws e => Throws e
  | OutOfFuel => OutOfFuel
  end.

Global Instance Outcome_bind : MBind Outcome := λ A B k o, bindOutcome o k.

(** [prefix + data] where [data] is the result of [JSON.stringify], a string
    or [undefined]. *)
Definition plusStringified (prefix : jsString) (data : option jsString) : jsString :=
  prefix ++ default (str "undefined") data.



(** ** Nodes

    An object is known to the writer by its identity (the key of the source
    map), by its constructor (the key of the registry) and by what a call of
    its [print()] method does: return a string or throw. [node_id] stands for
    the object identity. *)

Definition ASTNodeConstructor := string.

Record ASTNode := mkASTNode {
  node_id : N;
  constructor : ASTNodeConstructor;
  print : JSError + jsString
}.
Arguments mkASTNode node_id%_N constructor%_string print.

Global Instance ASTNode_eq_dec : EqDecision ASTNode.
Proof. solve_decision. Defined.

Global Instance ASTNode_countable : Countable ASTNode.
Proof.
  refine (inj_countable'
            (λ n, (node_id n, constructor n, print n))
            (λ t, mkASTNode t.1.1 t.1.2 t.2) _).
  by intros [].
Defined.

(** ** Descriptions

    [SrcDesc ::= (string | [ASTNode, SrcDesc])*] *)

Local Unset Elimination Schemes.
Inductive SrcDescElement :=
  | Str (s : jsString)
  | Assoc (node : ASTNode) (nodeDesc : list SrcDescElement).
Local Set Elimination Schemes.

Definition SrcDesc := list SrcDescElement.

(** [SrcRangeMap = Map<ASTNode, [number, number]>]: node to (start, length). *)
Abbreviation SrcRangeMap := (gmap ASTNode (Z * Z)).

(** ** Flattening: [ASTWriter.descToSourceString]

    The closure [helper] updates the local variables [source] and [size] and
    the caller's [sourceMap]; the three are threaded as a state. [size] and
    the ranges are byte counts, integers that a JavaScript number holds
    exactly. *)

Record FlatState := mkFlatState {
  source : jsString;
  size : Z;
  sourceMap : SrcRangeMap
}.

(** One iteration of the [for (const element of current)] loop. *)
Fixpoint helperElement (st : FlatState) (element : SrcDescElement) : FlatState :=
  match element with
  | Str s =>
      mkFlatState (source st ++ s) (size st + strByteLen s) (sourceMap st)
  | Assoc node nodeDesc =>
      let start := size st in
      let st' := foldl helperElement st nodeDesc in
      let length := size st' - start in
      mkFlatState (source st') (size st') (<[node := (start, length)]> (sourceMap st'))
  end.

Definition helper (current : SrcDesc) (st : FlatState) : FlatState :=
  foldl helperElement st current.

(** Returns the text, and the source map as the call leaves it. *)
Definition descToSourceString (desc : SrcDesc) (sourceMap0 : SrcRangeMap)
  : jsString * SrcRangeMap :=
  let st := helper desc (mkFlatState [] 0 sourceMap0) in
  (source st, sourceMap st).

(** The value of [size] when [descToSourceString] returns. *)
Definition finalSize (desc : SrcDesc) : Z := size (helper desc (mkFlatState [] 0 ∅)).

(** ** What a flattening emits and records

    The text of a description, the fragments it is appended from, and the
    calls [sourceMap.set(node, [start, length])] made while it is flattened,
    as functions of the description and of the value of [size] when [helper]
    enters it. [helper_spec] below shows that this is what the loop
    computes. *)

Fixpoint elementText (element : SrcDescElement) : jsString :=
  match element with
  | Str s => s
  | Assoc _ nodeDesc => nodeDesc ≫= elementText
  end.

Definition descText (desc : SrcDesc) : jsString := desc ≫= elementText.

(** The text fragments in the order in which the loop appends them. *)
Fixpoint elementFragments (element : SrcDescElement) : list jsString :=
  match element with
  | Str s => [s]
  | Assoc _ nodeDesc => nodeDesc ≫= elementFragments
  end.

Definition fragments (desc : SrcDesc) : list jsString := desc ≫= elementFragments.

(** What the loop adds to [size] for a sequence of fragments: the byte
    length of each, measured on its own. *)
Definition fragmentsLen (fs : list jsString) : Z :=
  foldr (λ f total, strByteLen f + total) 0 fs.

Definition elementLen (element : SrcDescElement) : Z :=
  fragmentsLen (elementFragments element).
Definition descLen (desc : SrcDesc) : Z := fragmentsLen (fragments desc).

(** The range recorded for one association entry, with the entry it comes
    from and the ranges recorded inside it. *)
Local Unset Elimination Schemes.
Inductive Span := mkSpan {
  span_node : ASTNode;
  span_desc : SrcDesc;
  span_start : Z;
  span_length : Z;
  span_inner : list Span
}.
Local Set Elimination Schemes.

Definition span_end (sp : Span) : Z := span_start sp + span_length sp.

Definition spansFrom (f : Z → SrcDescElement → list Span) : Z → SrcDesc → list Span :=
  fix go (at_ : Z) (current : SrcDesc) : list Span :=
    match current with
    | [] => []
    | element :: rest => f at_ element ++ go (at_ + elementLen element) rest
    end.

Fixpoint elementSpans (at_ : Z) (element : SrcDescElement) : list Span :=
  match element with
  | Str _ => []
  | Assoc node nodeDesc =>
      [mkSpan node nodeDesc at_ (descLen nodeDesc) (spansFrom elementSpans at_ nodeDesc)]
  end.

Definition descSpans : Z → SrcDesc → list Span := spansFrom elementSpans.

(** The spans of a forest at every depth, in the order in which the loop
    records them: those of a nested description first, the node's own last. *)
Fixpoint subSpans (sp : Span) : list Span :=
  (span_inner sp ≫= subSpans) ++ [sp].

Definition allSpans (forest : list Span) : list Span := forest ≫= subSpans.

(** [sourceMap.set(node, [start, length])] *)
Definition spanCall (sp : Span) : ASTNode * (Z * Z) :=
  (span_node sp, (span_start sp, span_length sp)).

Definition record (m : SrcRangeMap) (call : ASTNode * (Z * Z)) : SrcRangeMap :=
  <[call.1 := call.2]> m.

Definition setCalls (forest : list Span) : list (ASTNode * (Z * Z)) :=
  spanCall <$> allSpans forest.

(** The association entries of a description at every depth, in the order in
    which the loop completes them. *)
Fixpoint elementEntries (element : SrcDescElement) : list (ASTNode * SrcDesc) :=
  match element with
  | Str _ => []
  | Assoc node nodeDesc => (nodeDesc ≫= elementEntries) ++ [(node, nodeDesc)]
  end.

Definition entries (desc : SrcDesc) : list (ASTNode * SrcDesc) := desc ≫= elementEntries.

Definition spanEntry (sp : Span) : ASTNode * SrcDesc := (span_node sp, span_desc sp).

(** The nodes that occur in association entries. *)
Definition descNodes (desc : SrcDesc) : list ASTNode := (entries desc).*1.

(** A description without its text fragments, and a span without its range:
    the two trees that are compared. *)
Fixpoint assocOnly (element : SrcDescElement) : list SrcDescElement :=
  match element with
  | Str _ => []
  | Assoc node nodeDesc => [Assoc node (nodeDesc ≫= assocOnly)]
  end.

Fixpoint spanShape (sp : Span) : SrcDescElement :=
  Assoc (span_node sp) (spanShape <$> span_inner sp).

Definition recordedSpans (desc : SrcDesc) : list Span := allSpans (descSpans 0 desc).

(** What one iteration of the loop does to the state. *)
Definition elementSpec (e : SrcDescElement) : Prop :=
  ∀ st, helperElement st e =
        mkFlatState (source st ++ elementText e) (size st + elementLen e)
          (foldl record (sourceMap st) (setCalls (elementSpans (size st) e))).

(** A span lies where the fragments of its own description lie among all the
    fragments, and what is recorded inside it is what its description
    records. *)
Definition spanPlaced (at_ : Z) (whole : list jsString) (sp : Span) : Prop :=
  span_length sp = descLen (span_desc sp)
  ∧ span_inner sp = descSpans (span_start sp) (span_desc sp)
  ∧ ∃ pre post,
      whole = pre ++ fragments (span_desc sp) ++ post
      ∧ span_start sp = at_ + fragmentsLen pre.

(** ** The structured pipeline: [ASTNodeWriter] and [ASTWriter] *)

(** What [JSON.stringify(value, undefined, 4)] does: throw, or return a
    string or [undefined]. *)
Definition Stringified : Type := JSError + option jsString.

(** An argument of [desc]. [DescArgs] admits the first four; [ArgOther] is
    any other value a caller passes all the same, that is an object for which
    [arg instanceof ASTNode] is false. The writer reads its constructor and
    hands the object itself to a strategy ([other_object]), or calls
    [JSON.stringify] on it. *)
Record OtherValue := mkOtherValue {
  other_object : ASTNode;
  JSON_stringify : Stringified
}.

Inductive DescArg :=
  | ArgNull
  | ArgUndefined
  | ArgString (s : jsString)
  | ArgNode (node : ASTNode)
  | ArgOther (value : OtherValue).

Definition DescArgs := list DescArg.

(** The arguments that [desc] skips. *)
Definition isOmitted (arg : DescArg) : bool :=
  match arg with
  | ArgNull | ArgUndefined => true
  | _ => false
  end.

(** A strategy is handed the writer and reaches back into it through
    [writer.desc]; that method is what the model hands over. The formatter
    and [targetCompilerVersion] are fixed for a render. *)
Definition WriterDesc := DescArgs → Outcome SrcDesc.

Record ASTNodeWriter := mkASTNodeWriter {
  writeInner : ASTNode → WriterDesc → Outcome SrcDesc;
  writeWhole : ASTNode → WriterDesc → Outcome SrcDesc
}.

(** [ASTNodeWriter.writeWhole] as the base class defines it:
    [return [[node, this.writeInner(node, writer)]]]. *)
Definition writeWhole_default (writeInner : ASTNode → WriterDesc → Outcome SrcDesc)
    (node : ASTNode) (writer : WriterDesc) : Outcome SrcDesc :=
  inner ← writeInner node writer;
  Returns [Assoc node inner].

(** A strategy class that implements [writeInner] and inherits [writeWhole]. *)
Definition inheritWriteWhole (writeInner : ASTNode → WriterDesc → Outcome SrcDesc)
  : ASTNodeWriter :=
  mkASTNodeWriter writeInner (writeWhole_default writeInner).

Record ASTWriter := mkASTWriter {
  mapping : gmap ASTNodeConstructor ASTNodeWriter;
  targetCompilerVersion : jsString
}.

(** The loop of [desc] over [args], [result] being the array built so far.
    For an object the registry is asked first, by the constructor; when it
    has no entry, the error depends on [arg instanceof ASTNode], and the call
    that renders the object for the message may throw in its turn. *)
Fixpoint descLoop (W : ASTWriter) (this_desc : WriterDesc)
    (args : DescArgs) (result : SrcDesc) : Outcome SrcDesc :=
  match args with
  | [] => Returns result
  | arg :: rest =>
      match arg with
      | ArgNull | ArgUndefined => descLoop W this_desc rest result
      | ArgString s => descLoop W this_desc rest (result ++ [Str s])
      | ArgNode node =>
          match mapping W !! constructor node with
          | None =>
              match print node with
              | inr shown =>
                  Throws (Error (str "Unable to find writer for AST arg: " ++ shown))
              | inl thrown => Throws thrown
              end
          | Some writer =>
              whole ← writeWhole writer node this_desc;
              descLoop W this_desc rest (result ++ whole)
          end
      | ArgOther value =>
          match mapping W !! constructor (other_object value) with
          | None =>
              match JSON_stringify value with
              | inr data =>
                  Throws (Error (plusStringified
                                   (str "Expected an instance of ASTNode but got following: ")
                                   data))
              | inl thrown => Throws thrown
              end
          | Some writer =>
              whole ← writeWhole writer (other_object value) this_desc;
              descLoop W this_desc rest (result ++ whole)
          end
      end
  end.

(** [ASTWriter.desc]. Each call spends one unit of fuel; the strategies it
    invokes re-enter it with what is left. *)
Fixpoint desc (fuel : nat) (W : ASTWriter) (args : DescArgs) : Outcome SrcDesc :=
  match fuel with
  | O => OutOfFuel
  | S fuel' => descLoop W (desc fuel' W) args []
  end.

(** What one argument of [desc] adds to [result], or the error it ends the
    loop with; [descLoop_cons] below shows that the loop goes argument by
    argument in this way. *)
Definition argStep (W : ASTWriter) (this_desc : WriterDesc) (arg : DescArg)
  : Outcome SrcDesc :=
  descLoop W this_desc [arg] [].

(** [ASTWriter.write]. [None] stands for the omitted second argument, which
    defaults to a new map. Returned with the outcome is the source map as the
    call leaves it. *)
Definition write (fuel : nat) (W : ASTWriter) (node : ASTNode)
    (sourceMap1 : option SrcRangeMap) : Outcome jsString * SrcRangeMap :=
  let sourceMap0 := default ∅ sourceMap1 in
  match desc fuel W [ArgNode node] with
  | Returns d =>
      let '(text, m) := descToSourceString d sourceMap0 in (Returns text, m)
  | Throws e => (Throws e, sourceMap0)
  | OutOfFuel => (OutOfFuel, sourceMap0)
  end.

(** ** The Yul pipeline *)

Module YulWriter.

(** A [YulNode] is known to the writer by its [nodeType] and by what
    [JSON.stringify(node, undefined, 4)] does on it. *)
Record YulNode := mkYulNode {
  nodeType : jsString;
  JSON_stringify : Stringified
}.

(** [YulNodeWriter.write(node, writer)]; the strategy reaches back into the
    writer through [writer.write]. *)
Record YulNodeWriter := mkYulNodeWriter {
  write_node : YulNode → (YulNode → Outcome jsString) → Outcome jsString
}.

Record t := mkYulWriter {
  mapping : gmap jsString YulNodeWriter
}.

Fixpoint write (fuel : nat) (Y : t) (node : YulNode) : Outcome jsString :=
  match fuel with
  | O => OutOfFuel
  | S fuel' =>
      match mapping Y !! nodeType node with
      | Some writer => write_node writer node (write fuel' Y)
      | None =>
          match JSON_stringify node with
          | inr data =>
              Throws (Error (plusStringified (str "Unable to find writer for Yul node: ") data))
          | inl thrown => Throws thrown
          end
      end
  end.

End YulWriter.

(** ** Flattening with the objects in a store

    [descToSourceString] is handed references: to the array that is the
    description, whose elements are strings or references to the two-element
    arrays [[node, nodeDesc]], [nodeDesc] being a reference to the nested
    array; and to the [Map] that is the source map. The store holds the
    arrays, the pairs and the maps; the loop reads the former two and calls
    [set] on the one map it was given. *)

Definition Loc := N.

Inductive StoredElement :=
  | StoredStr (s : jsString)
  | StoredPair (pair : Loc).

Record Store := mkStore {
  arrays : gmap Loc (list StoredElement);
  pairs : gmap Loc (ASTNode * Loc);
  sourceMaps : gmap Loc SrcRangeMap
}.

(** The locals [source] and [size], and the store. *)
Record StoreState := mkStoreState {
  st_source : jsString;
  st_size : Z;
  st_store : Store
}.

(** [sourceMap.set(node, range)] on the map that [sourceMap] refers to. *)
Definition setAt (sourceMap : Loc) (node : ASTNode) (range : Z * Z) (σ : Store)
  : option Store :=
  m ← sourceMaps σ !! sourceMap;
  Some (mkStore (arrays σ) (pairs σ) (<[sourceMap := <[node := range]> m]> (sourceMaps σ))).

(** The [for] loop of [helper] over the elements of an array, [recur] being
    the call of [helper] on a nested array. *)
Definition helperLoop (recur : Loc → StoreState → option StoreState) (sourceMap : Loc)
  : list StoredElement → StoreState → option StoreState :=
  fix loop (elements : list StoredElement) (st : StoreState) : option StoreState :=
    match elements with
    | [] => Some st
    | StoredStr s :: rest =>
        loop rest (mkStoreState (st_source st ++ s) (st_size st + strByteLen s) (st_store st))
    | StoredPair element :: rest =>
        '(node, nodeDesc) ← pairs (st_store st) !! element;
        let start := st_size st in
        st' ← recur nodeDesc st;
        let length := st_size st' - start in
        σ' ← setAt sourceMap node (start, length) (st_store st');
        loop rest (mkStoreState (st_source st') (st_size st') σ')
    end.

(** [helper(current)]; [None] when the fuel that bounds the nesting runs
    out. *)
Fixpoint helperAt (fuel : nat) (sourceMap current : Loc) (st : StoreState)
  : option StoreState :=
  match fuel with
  | O => None
  | S fuel' =>
      elements ← arrays (st_store st) !! current;
      helperLoop (helperAt fuel' sourceMap) sourceMap elements st
  end.

(** [descToSourceString(desc, sourceMap)] on references: the text and the
    store as the call leaves it. *)
Definition descToSourceStringAt (fuel : nat) (desc sourceMap : Loc) (σ : Store)
  : option (jsString * Store) :=
  st ← helperAt fuel sourceMap desc (mkStoreState [] 0 σ);
  Some (st_source st, st_store st).

(** The description that the store holds at a reference, read to the depth
    that the fuel allows. *)
Definition readElements (σ : Store) (recur : Loc → option SrcDesc)
  : list StoredElement → option SrcDesc :=
  fix read (elements : list StoredElement) : option SrcDesc :=
    match elements with
    | [] => Some []
    | StoredStr s :: rest => d ← read rest; Some (Str s :: d)
    | StoredPair element :: rest =>
        '(node, nodeDesc) ← pairs σ !! element;
        nested ← recur nodeDesc;
        d ← read rest;
        Some (Assoc node nested :: d)
    end.

Fixpoint readDesc (fuel : nat) (σ : Store) (desc : Loc) : option SrcDesc :=
  match fuel with
  | O => None
  | S fuel' =>
      elements ← arrays σ !! desc;
      readElements σ (readDesc fuel' σ) elements
  end.

(** The store with the map at [ref] replaced. *)
Definition withMap (ref : Loc) (m : SrcRangeMap) (σ : Store) : Store :=
  mkStore (arrays σ) (pairs σ) (<[ref := m]> (sourceMaps σ)).

(** The state after [helper] has run on a description read from the store. *)
Definition afterRun (ref : Loc) (st : StoreState) (fs : FlatState) : StoreState :=
  mkStoreState (source fs) (size fs) (withMap ref (sourceMap fs) (st_store st)).

(** ** Sample nodes, strategies and descriptions *)

Definition nodeX := mkASTNode 1 "BinaryOperation" (inr (str "BinaryOperation #1")).
Definition nodeA := mkASTNode 2 "Identifier" (inr (str "Identifier #2")).
Definition nodeB := mkASTNode 3 "Identifier" (inr (str "Identifier #3")).
Definition nodeU := mkASTNode 4 "Unregistered" (inr (str "Unregistered #4")).




Definition example_desc : SrcDesc :=
  [Assoc nodeX [Assoc nodeA [Str (str "foo")]; Str (str " + "); Assoc nodeB [Str (str "bar")]]].

(** The two halves of U+1F600 in two fragments, then one more entry. *)
Definition split_pair_desc : SrcDesc :=
  [Assoc nodeA [Str [0xD83D%N]; Str [0xDE00%N]]; Assoc nodeB [Str (str "x")]].

(** An identifier is written as its name. *)
Definition identifierName (node : ASTNode) : jsString :=
  if (node_id node =? 2)%N then str "foo" else str "bar".

Definition IdentifierWriter : ASTNodeWriter :=
  inheritWriteWhole (λ node _, Returns [Str (identifierName node)]).

(** A binary operation is written as its two operands around the operator. *)
Definition BinaryOperationWriter : ASTNodeWriter :=
  inheritWriteWhole (λ _ writer, writer [ArgNode nodeA; ArgString (str " + "); ArgNode nodeB]).

Definition example_writer : ASTWriter :=
  mkASTWriter
    (<["BinaryOperation"%string := BinaryOperationWriter]>
       (<["Identifier"%string := IdentifierWriter]> ∅))
    (str "0.8.0").



(** The sample description held in a store, with two empty source maps. *)
Definition example_store : Store :=
  mkStore
    (<[0%N := [StoredPair 20%N]]>
       (<[1%N := [StoredPair 21%N; StoredStr (str " + "); StoredPair 22%N]]>
          (<[2%N := [StoredStr (str "foo")]]>
             (<[3%N := [StoredStr (str "bar")]]> ∅))))
    (<[20%N := (nodeX, 1%N)]> (<[21%N := (nodeA, 2%N)]> (<[22%N := (nodeB, 3%N)]> ∅)))
    (<[10%N := ∅]> (<[11%N := ∅]> ∅)).

(** ** Auxiliary notions for the further properties *)

(** A recorded call with its start moved by [k] bytes. *)
Definition shiftCall (k : Z) (call : ASTNode * (Z * Z)) : ASTNode * (Z * Z) :=
  (call.1, (call.2.1 + k, call.2.2)).

(** The string of a string argument. *)
Definition argText (arg : DescArg) : option jsString :=
  match arg with
  | ArgString s => Some s
  | _ => None
  end.

(** Arguments that [desc] handles without the registry. *)
Definition isPlain (arg : DescArg) : bool :=
  match arg with
  | ArgNull | ArgUndefined | ArgString _ => true
  | _ => false
  end.

(** A registry that knows binary operations but not their operands. *)
Definition partial_writer : ASTWriter :=
  mkASTWriter (<["BinaryOperation"%string := BinaryOperationWriter]> ∅) (str "0.8.0").

(** * Proofs *)

(** ** Induction on descriptions *)

Lemma SrcDescElement_nested_ind (P : SrcDescElement → Prop) :
  (∀ s, P (Str s)) →
  (∀ node nodeDesc, Forall P nodeDesc → P (Assoc node nodeDesc)) →
  ∀ element, P element.
Proof.
  intros HStr HAssoc.
  fix IH 1. intros [s | node nodeDesc].
  - apply HStr.
  - apply HAssoc. induction nodeDesc as [| e rest IHrest]; constructor.
    + apply IH.
    + apply IHrest.
Qed.

(** A property of descriptions follows from the property of their elements. *)
Ltac by_elements from_elements of_element :=
  apply from_elements, Forall_forall; intros; apply of_element; try assumption.

(** ** Surrogates and the encoding of a concatenation *)

Lemma endsHigh_cons_cons c d s : endsHigh (c :: d :: s) = endsHigh (d :: s).
Proof. unfold endsHigh. by rewrite last_cons_cons. Qed.

Lemma endsHigh_app a b :
  endsHigh (a ++ b) = match b with [] => endsHigh a | _ => endsHigh b end.
Proof.
  destruct b as [| d b]; [by rewrite app_nil_r |].
  unfold endsHigh. rewrite last_app. destruct (last (d :: b)) as [x |] eqn:Hlast; [done |].
  by apply last_None in Hlast.
Qed.

(** Appending two texts appends their encodings, unless the first ends with
    a high surrogate and the second starts with a low one. *)
Lemma utf8_cons c rest :
  utf8 (c :: rest) =
  if isHighSurrogate c then
    match rest with
    | d :: rest' =>
        if isLowSurrogate d then utf8_char (pairCodePoint c d) ++ utf8 rest'
        else replacement ++ utf8 rest
    | [] => replacement ++ utf8 rest
    end
  else if isLowSurrogate c then replacement ++ utf8 rest
  else utf8_char c ++ utf8 rest.
Proof. reflexivity. Qed.

Lemma utf8_app a b :
  endsHigh a && startsLow b = false → utf8 (a ++ b) = utf8 a ++ utf8 b.
Proof.
  remember (length a) as n eqn:Hn. revert a Hn b.
  induction n as [n IH] using lt_wf_ind. intros a Hn b Hclean.
  destruct a as [| c a]; [done |].
  destruct a as [| d a].
  - change ([c] ++ b) with (c :: b). rewrite !utf8_cons.
    unfold endsHigh in Hclean. cbn [last] in Hclean.
    destruct (isHighSurrogate c) eqn:Hc.
    + change (utf8 []) with (@nil byte). rewrite app_nil_r.
      destruct b as [| d b]; [by rewrite app_nil_r |]. cbn in Hclean. by rewrite Hclean.
    + change (utf8 []) with (@nil byte). by destruct (isLowSurrogate c); rewrite app_nil_r.
  - rewrite endsHigh_cons_cons in Hclean.
    change ((c :: d :: a) ++ b) with (c :: d :: (a ++ b)).
    rewrite (utf8_cons c (d :: a ++ b)), (utf8_cons c (d :: a)).
    assert (Htail : utf8 ((d :: a) ++ b) = utf8 (d :: a) ++ utf8 b).
    { apply (IH (length (d :: a))); [cbn in *; lia | done | done]. }
    change ((d :: a) ++ b) with (d :: a ++ b) in Htail.
    destruct (isHighSurrogate c) eqn:Hc.
    + destruct (isLowSurrogate d) eqn:Hd; [| by rewrite Htail, app_assoc].
      rewrite (IH (length a)); [by rewrite app_assoc | cbn in Hn; lia | done |].
      destruct a as [| d' a]; [done |]. by rewrite endsHigh_cons_cons in Hclean.
    + rewrite Htail. by destruct (isLowSurrogate c); rewrite app_assoc.
Qed.

Lemma mjoin_cons (f : jsString) (fs : list jsString) : mjoin (f :: fs) = f ++ mjoin fs.
Proof. reflexivity. Qed.

Lemma mjoin_app (fs1 fs2 : list jsString) : mjoin (fs1 ++ fs2) = mjoin fs1 ++ mjoin fs2.
Proof. apply join_app. Qed.

Lemma mjoin_bytes_cons (bs : list byte) (bss : list (list byte)) :
  mjoin (bs :: bss) = bs ++ mjoin bss.
Proof. reflexivity. Qed.

Lemma strByteLen_nonneg (s : jsString) : 0 ≤ strByteLen s.
Proof. unfold strByteLen. lia. Qed.

Lemma strByteLen_app a b :
  endsHigh a && startsLow b = false → strByteLen (a ++ b) = strByteLen a + strByteLen b.
Proof. intros Hclean. unfold strByteLen. rewrite utf8_app, length_app by done. lia. Qed.

Lemma noSplit_weaken emitted emitted' fs :
  (endsHigh emitted' = true → endsHigh emitted = true) →
  noSplit emitted fs = true → noSplit emitted' fs = true.
Proof.
  revert emitted emitted'. induction fs as [| f fs IH]; intros emitted emitted' Hends; [done |].
  cbn [noSplit]. rewrite !andb_true_iff, !negb_true_iff, !andb_false_iff.
  intros [Hjoin Hrest]. split.
  - destruct Hjoin as [Hjoin | Hjoin]; [| by right].
    left. destruct (endsHigh emitted') eqn:He; [| done]. by rewrite Hends in Hjoin.
  - apply (IH (emitted ++ f)); [| done].
    rewrite !endsHigh_app. by destruct f.
Qed.

Lemma noSplit_app emitted fs1 fs2 :
  noSplit emitted (fs1 ++ fs2) = noSplit emitted fs1 && noSplit (emitted ++ mjoin fs1) fs2.
Proof.
  revert emitted. induction fs1 as [| f fs1 IH]; intros emitted.
  - cbn. by rewrite app_nil_r.
  - cbn [app noSplit]. rewrite IH, mjoin_cons, (app_assoc emitted). by rewrite andb_assoc.
Qed.

(** A part of a sequence that is free of split pairs is free of them. *)
Lemma noSplit_middle pre mid post :
  noSplit [] (pre ++ mid ++ post) = true →
  noSplit [] pre = true ∧ noSplit [] mid = true.
Proof.
  rewrite !noSplit_app, !andb_true_iff. intros (Hpre & Hmid & _). split; [done |].
  by apply (noSplit_weaken ([] ++ mjoin pre)).
Qed.

Lemma utf8_join emitted fs :
  noSplit emitted fs = true →
  utf8 (emitted ++ mjoin fs) = utf8 emitted ++ mjoin (utf8 <$> fs).
Proof.
  revert emitted. induction fs as [| f fs IH]; intros emitted.
  - intros _. cbn. by rewrite !app_nil_r.
  - cbn [noSplit]. rewrite andb_true_iff, negb_true_iff. intros [Hjoin Hrest].
    rewrite mjoin_cons, app_assoc, (IH _ Hrest), (utf8_app _ _ Hjoin).
    by rewrite fmap_cons, mjoin_bytes_cons, app_assoc.
Qed.

Lemma utf8_mjoin (fs : list jsString) :
  noSplit [] fs = true → utf8 (mjoin fs) = mjoin (utf8 <$> fs).
Proof. apply (utf8_join [] fs). Qed.

(** ** Byte counts *)

Lemma fragmentsLen_app fs1 fs2 :
  fragmentsLen (fs1 ++ fs2) = fragmentsLen fs1 + fragmentsLen fs2.
Proof.
  induction fs1 as [| f fs1 IH]; [done |].
  cbn [app fragmentsLen foldr] in *. fold (fragmentsLen (fs1 ++ fs2)).
  fold (fragmentsLen fs1). lia.
Qed.

Lemma fragmentsLen_nonneg fs : 0 ≤ fragmentsLen fs.
Proof.
  induction fs as [| f fs IH]; [done |].
  cbn [fragmentsLen foldr]. fold (fragmentsLen fs).
  pose proof (strByteLen_nonneg f). lia.
Qed.

(** What the loop counts is the length of the encodings of the fragments
    put end to end. *)
Lemma fragmentsLen_utf8 fs : fragmentsLen fs = Z.of_nat (length (mjoin (utf8 <$> fs))).
Proof.
  induction fs as [| f fs IH]; [done |].
  cbn [fragmentsLen foldr]. fold (fragmentsLen fs).
  rewrite fmap_cons, mjoin_bytes_cons, length_app, IH. unfold strByteLen. lia.
Qed.

(** Without split pairs the count is the byte length of the text. *)
Lemma fragmentsLen_text fs :
  noSplit [] fs = true → fragmentsLen fs = strByteLen (mjoin fs).
Proof.
  intros Hclean. rewrite fragmentsLen_utf8. unfold strByteLen.
  by rewrite utf8_mjoin.
Qed.

Lemma descText_cons e (d : SrcDesc) : descText (e :: d) = elementText e ++ descText d.
Proof. reflexivity. Qed.

Lemma fragments_cons e (d : SrcDesc) : fragments (e :: d) = elementFragments e ++ fragments d.
Proof. reflexivity. Qed.

Lemma elementText_fragments e : elementText e = mjoin (elementFragments e).
Proof.
  induction e as [s | node nodeDesc IH] using SrcDescElement_nested_ind.
  - cbn. by rewrite app_nil_r.
  - cbn [elementText elementFragments]. induction IH as [| e d He _ IHd]; [done |].
    change (elementText e ++ (d ≫= elementText)
            = mjoin (elementFragments e ++ (d ≫= elementFragments))).
    by rewrite mjoin_app, He, IHd.
Qed.

Lemma descText_fragments_of (d : SrcDesc) : descText d = mjoin (fragments d).
Proof.
  induction d as [| e d IH]; [done |].
  by rewrite descText_cons, fragments_cons, mjoin_app, elementText_fragments, IH.
Qed.

Lemma descLen_cons e (d : SrcDesc) : descLen (e :: d) = elementLen e + descLen d.
Proof. unfold descLen, elementLen. rewrite fragments_cons. apply fragmentsLen_app. Qed.

Lemma elementLen_Str s : elementLen (Str s) = strByteLen s.
Proof. unfold elementLen. cbn. lia. Qed.

Lemma elementLen_Assoc node nodeDesc : elementLen (Assoc node nodeDesc) = descLen nodeDesc.
Proof. reflexivity. Qed.

Lemma descSpans_cons at_ e (d : SrcDesc) :
  descSpans at_ (e :: d) = elementSpans at_ e ++ descSpans (at_ + elementLen e) d.
Proof. reflexivity. Qed.

Lemma elementSpans_Assoc at_ node nodeDesc :
  elementSpans at_ (Assoc node nodeDesc) =
  [mkSpan node nodeDesc at_ (descLen nodeDesc) (descSpans at_ nodeDesc)].
Proof. reflexivity. Qed.

Lemma allSpans_app (f1 f2 : list Span) : allSpans (f1 ++ f2) = allSpans f1 ++ allSpans f2.
Proof. unfold allSpans. apply bind_app. Qed.

Lemma allSpans_singleton sp : allSpans [sp] = allSpans (span_inner sp) ++ [sp].
Proof. destruct sp. unfold allSpans. cbn. by rewrite app_nil_r. Qed.

Lemma setCalls_app (f1 f2 : list Span) : setCalls (f1 ++ f2) = setCalls f1 ++ setCalls f2.
Proof. unfold setCalls. by rewrite allSpans_app, fmap_app. Qed.

Lemma setCalls_singleton sp : setCalls [sp] = setCalls (span_inner sp) ++ [spanCall sp].
Proof. unfold setCalls. by rewrite allSpans_singleton, fmap_app. Qed.

Lemma elem_of_allSpans_top sp (forest : list Span) : sp ∈ forest → sp ∈ allSpans forest.
Proof.
  intros Hin. unfold allSpans. apply list_elem_of_bind. exists sp. split; [| done].
  destruct sp. cbn. apply elem_of_app. right. by apply list_elem_of_singleton.
Qed.

(** ** The loop computes the text, the byte count and the recorded calls *)

Lemma helper_cons e (d : SrcDesc) st : helper (e :: d) st = helper d (helperElement st e).
Proof. reflexivity. Qed.

Lemma helperElement_Assoc st node nodeDesc :
  helperElement st (Assoc node nodeDesc) =
  let st' := helper nodeDesc st in
  mkFlatState (source st') (size st')
    (<[node := (size st, size st' - size st)]> (sourceMap st')).
Proof. reflexivity. Qed.

Lemma helper_spec_from (d : SrcDesc) :
  Forall elementSpec d →
  ∀ st, helper d st =
        mkFlatState (source st ++ descText d) (size st + descLen d)
          (foldl record (sourceMap st) (setCalls (descSpans (size st) d))).
Proof.
  induction 1 as [| e d He _ IH]; intros st.
  - destruct st as [src sz m]. cbn. by rewrite app_nil_r, Z.add_0_r.
  - rewrite helper_cons, IH, He. cbn [source size sourceMap].
    rewrite descText_cons, descLen_cons, descSpans_cons, setCalls_app, foldl_app.
    f_equal; [by rewrite app_assoc | lia].
Qed.

Lemma helperElement_spec e : elementSpec e.
Proof.
  induction e as [s | node nodeDesc IH] using SrcDescElement_nested_ind; intros st.
  - rewrite elementLen_Str. reflexivity.
  - rewrite helperElement_Assoc, (helper_spec_from _ IH). cbn [source size sourceMap].
    rewrite elementSpans_Assoc, setCalls_singleton, foldl_app, elementLen_Assoc.
    cbn [foldl span_inner elementText].
    replace (size st + descLen nodeDesc - size st) with (descLen nodeDesc) by lia.
    reflexivity.
Qed.

Lemma helper_spec (d : SrcDesc) (st : FlatState) :
  helper d st =
  mkFlatState (source st ++ descText d) (size st + descLen d)
    (foldl record (sourceMap st) (setCalls (descSpans (size st) d))).
Proof. by_elements helper_spec_from helperElement_spec. Qed.

Lemma descToSourceString_spec (desc : SrcDesc) (sm : SrcRangeMap) :
  descToSourceString desc sm = (descText desc, foldl record sm (setCalls (descSpans 0 desc))).
Proof. unfold descToSourceString. by rewrite helper_spec. Qed.

(** ** What a sequence of [set] calls leaves in the map *)

Lemma record_snoc m calls call :
  foldl record m (calls ++ [call]) = <[call.1 := call.2]> (foldl record m calls).
Proof. by rewrite foldl_app. Qed.

Lemma record_lookup_notin (m : SrcRangeMap) calls n :
  n ∉ calls.*1 → foldl record m calls !! n = m !! n.
Proof.
  induction calls as [| call calls IH] using rev_ind; [done |].
  rewrite fmap_app, elem_of_app, record_snoc. intros Hn.
  rewrite lookup_insert_ne.
  - apply IH. tauto.
  - intros <-. apply Hn. right. cbn. by apply list_elem_of_singleton.
Qed.

Lemma record_lookup_inv (m : SrcRangeMap) calls n r :
  foldl record m calls !! n = Some r →
  ((n ∉ calls.*1) ∧ m !! n = Some r) ∨ ((n, r) ∈ calls).
Proof.
  induction calls as [| [n' r'] calls IH] using rev_ind.
  - cbn. intros Hm. left. split; [apply not_elem_of_nil | done].
  - rewrite record_snoc. cbn. destruct (decide (n' = n)) as [-> | Hne].
    + rewrite lookup_insert_eq. intros [= ->]. right.
      apply elem_of_app. right. by apply list_elem_of_singleton.
    + rewrite lookup_insert_ne by done. intros Hl.
      destruct (IH Hl) as [[Hnot Hm] | Hin].
      * left. split; [| done]. rewrite fmap_app, elem_of_app. cbn.
        rewrite list_elem_of_singleton. intros [? | ?]; [tauto | congruence].
      * right. apply elem_of_app. by left.
Qed.

Lemma record_lookup_NoDup (m : SrcRangeMap) calls n r :
  NoDup calls.*1 → (n, r) ∈ calls → foldl record m calls !! n = Some r.
Proof.
  induction calls as [| [n' r'] calls IH] using rev_ind.
  - intros _ Hin. by apply elem_of_nil in Hin.
  - rewrite fmap_app, NoDup_app, elem_of_app, record_snoc. cbn.
    intros (Hnd & Hfresh & _) [Hin | Hin].
    + rewrite lookup_insert_ne; [by apply IH |].
      intros ->. apply (Hfresh n); [| by apply list_elem_of_singleton].
      apply list_elem_of_fmap. by exists (n, r).
    + apply list_elem_of_singleton in Hin as [= -> ->]. apply lookup_insert_eq.
Qed.

(** ** The spans of a description *)

Lemma spanPlaced_widen at_ (whole : list jsString) sp (before after : list jsString) :
  spanPlaced (at_ + fragmentsLen before) whole sp →
  spanPlaced at_ (before ++ whole ++ after) sp.
Proof.
  intros (Hlen & Hinner & pre & post & -> & Hstart).
  split; [done |]. split; [done |].
  exists (before ++ pre), (post ++ after). split.
  - by rewrite <- !app_assoc.
  - rewrite fragmentsLen_app. lia.
Qed.

Lemma descSpans_placed_from (d : SrcDesc) :
  Forall (λ e, ∀ at_ sp, sp ∈ allSpans (elementSpans at_ e) →
                         spanPlaced at_ (elementFragments e) sp) d →
  ∀ at_ sp, sp ∈ allSpans (descSpans at_ d) → spanPlaced at_ (fragments d) sp.
Proof.
  induction 1 as [| e d He _ IH]; intros at_ sp.
  - intros Hin. by apply elem_of_nil in Hin.
  - rewrite descSpans_cons, allSpans_app, elem_of_app, fragments_cons.
    intros [Hin | Hin].
    + apply He in Hin. apply (spanPlaced_widen _ _ _ [] (fragments d)).
      change (fragmentsLen []) with 0. by rewrite Z.add_0_r.
    + apply IH in Hin. apply (spanPlaced_widen _ _ _ (elementFragments e) []) in Hin.
      by rewrite app_nil_r in Hin.
Qed.

Lemma elementSpans_placed e at_ sp :
  sp ∈ allSpans (elementSpans at_ e) → spanPlaced at_ (elementFragments e) sp.
Proof.
  revert at_ sp.
  induction e as [s | node nodeDesc IH] using SrcDescElement_nested_ind; intros at_ sp.
  - intros Hin. by apply elem_of_nil in Hin.
  - rewrite elementSpans_Assoc, allSpans_singleton, elem_of_app. cbn [span_inner].
    intros [Hin | Hin].
    + by apply (descSpans_placed_from _ IH).
    + apply list_elem_of_singleton in Hin as ->.
      unfold spanPlaced. cbn [span_length span_desc span_inner span_start].
      split; [reflexivity |]. split; [reflexivity |]. exists [], [].
      split; [by rewrite app_nil_r | change (fragmentsLen []) with 0; lia].
Qed.

Lemma descSpans_placed (d : SrcDesc) at_ sp :
  sp ∈ allSpans (descSpans at_ d) → spanPlaced at_ (fragments d) sp.
Proof. by_elements descSpans_placed_from elementSpans_placed. Qed.

Lemma spanPlaced_bounds at_ whole sp :
  spanPlaced at_ whole sp →
  at_ ≤ span_start sp ∧ 0 ≤ span_length sp ∧ span_end sp ≤ at_ + fragmentsLen whole.
Proof.
  intros (Hlen & _ & pre & post & -> & Hstart). unfold span_end.
  rewrite Hlen, Hstart, !fragmentsLen_app. unfold descLen.
  pose proof (fragmentsLen_nonneg pre). pose proof (fragmentsLen_nonneg post).
  pose proof (fragmentsLen_nonneg (fragments (span_desc sp))). lia.
Qed.

Lemma byteSlice_middle (pre mid post : list byte) :
  byteSlice (pre ++ mid ++ post) (Z.of_nat (length pre)) (Z.of_nat (length mid)) = mid.
Proof.
  unfold byteSlice. rewrite !Nat2Z.id.
  by rewrite drop_app_length, take_app_length.
Qed.

(** Without split pairs a span is the byte range of the text of its own
    description within the whole text. *)
Lemma spanPlaced_slice whole sp :
  noSplit [] whole = true → spanPlaced 0 whole sp →
  byteSlice (utf8 (mjoin whole)) (span_start sp) (span_length sp)
  = utf8 (descText (span_desc sp))
  ∧ span_end sp ≤ strByteLen (mjoin whole).
Proof.
  intros Hclean Hplaced. split.
  - destruct Hplaced as (Hlen & _ & pre & post & -> & Hstart).
    destruct (noSplit_middle _ _ _ Hclean) as [_ Hmid].
    rewrite (utf8_mjoin _ Hclean), !fmap_app, !join_app.
    rewrite Hlen, Hstart, Z.add_0_l, !fragmentsLen_utf8. unfold descLen.
    rewrite fragmentsLen_utf8, byteSlice_middle, descText_fragments_of.
    symmetry. by apply utf8_mjoin.
  - apply spanPlaced_bounds in Hplaced. rewrite <- fragmentsLen_text by done. lia.
Qed.

Lemma descSpans_top_bounds (d : SrcDesc) at_ sp :
  sp ∈ descSpans at_ d → at_ ≤ span_start sp ∧ span_end sp ≤ at_ + descLen d.
Proof.
  intros Hin. apply elem_of_allSpans_top, descSpans_placed, spanPlaced_bounds in Hin.
  unfold descLen. lia.
Qed.

(** Spans of one nesting level come in the order of the text, each ending
    before the next starts. *)
Lemma descSpans_ordered (d : SrcDesc) at_ (i j : nat) a b :
  (i < j)%nat →
  descSpans at_ d !! i = Some a → descSpans at_ d !! j = Some b →
  span_end a ≤ span_start b.
Proof.
  revert at_ i j. induction d as [| e d IH]; intros at_ i j Hij; [done |].
  rewrite descSpans_cons. destruct e as [s | node nodeDesc].
  - cbn [elementSpans app]. apply IH, Hij.
  - rewrite elementSpans_Assoc. cbn [app].
    destruct j as [| j]; [lia |]. destruct i as [| i]; cbn [lookup list_lookup].
    + intros [= <-] Hb. apply list_elem_of_lookup_2, descSpans_top_bounds in Hb.
      unfold span_end. cbn. rewrite elementLen_Assoc in Hb. lia.
    + apply IH. lia.
Qed.

(** The span forest is the tree of association entries. *)
Lemma descSpans_shape_from (d : SrcDesc) :
  Forall (λ e, ∀ at_, spanShape <$> elementSpans at_ e = assocOnly e) d →
  ∀ at_, spanShape <$> descSpans at_ d = d ≫= assocOnly.
Proof.
  induction 1 as [| e d He _ IH]; intros at_; [done |].
  rewrite descSpans_cons, fmap_app, He, IH. reflexivity.
Qed.

Lemma elementSpans_shape e at_ : spanShape <$> elementSpans at_ e = assocOnly e.
Proof.
  revert at_.
  induction e as [s | node nodeDesc IH] using SrcDescElement_nested_ind; intros at_.
  - reflexivity.
  - rewrite elementSpans_Assoc. cbn. by rewrite (descSpans_shape_from _ IH).
Qed.

Lemma descSpans_shape (d : SrcDesc) at_ : spanShape <$> descSpans at_ d = d ≫= assocOnly.
Proof. by_elements descSpans_shape_from elementSpans_shape. Qed.

(** Every association entry has its span, in the order of the [set] calls. *)
Lemma descSpans_entries_from (d : SrcDesc) :
  Forall (λ e, ∀ at_, spanEntry <$> allSpans (elementSpans at_ e) = elementEntries e) d →
  ∀ at_, spanEntry <$> allSpans (descSpans at_ d) = entries d.
Proof.
  induction 1 as [| e d He _ IH]; intros at_; [done |].
  rewrite descSpans_cons, allSpans_app, fmap_app, He, IH. reflexivity.
Qed.

Lemma elementSpans_entries e at_ :
  spanEntry <$> allSpans (elementSpans at_ e) = elementEntries e.
Proof.
  revert at_.
  induction e as [s | node nodeDesc IH] using SrcDescElement_nested_ind; intros at_.
  - reflexivity.
  - rewrite elementSpans_Assoc, allSpans_singleton, fmap_app. cbn.
    by rewrite (descSpans_entries_from _ IH).
Qed.

Lemma descSpans_entries (d : SrcDesc) at_ :
  spanEntry <$> allSpans (descSpans at_ d) = entries d.
Proof. by_elements descSpans_entries_from elementSpans_entries. Qed.

Lemma setCalls_nodes (d : SrcDesc) at_ : (setCalls (descSpans at_ d)).*1 = descNodes d.
Proof.
  unfold setCalls, descNodes. rewrite <- (descSpans_entries d at_), <- !list_fmap_compose.
  reflexivity.
Qed.

Lemma elem_of_setCalls forest n r :
  (n, r) ∈ setCalls forest ↔
  ∃ sp, sp ∈ allSpans forest ∧ span_node sp = n ∧ (span_start sp, span_length sp) = r.
Proof.
  unfold setCalls. rewrite list_elem_of_fmap. unfold spanCall. split.
  - intros (sp & [= -> ->] & Hin). by exists sp.
  - intros (sp & Hin & <- & <-). by exists sp.
Qed.

Lemma record_lookup_in (m m' : SrcRangeMap) calls n :
  n ∈ calls.*1 → foldl record m calls !! n = foldl record m' calls !! n.
Proof.
  induction calls as [| [n' r'] calls IH] using rev_ind.
  - intros Hin. by apply elem_of_nil in Hin.
  - rewrite fmap_app, elem_of_app, !record_snoc. cbn. intros Hin.
    destruct (decide (n' = n)) as [-> | Hne].
    + by rewrite !lookup_insert_eq.
    + rewrite !lookup_insert_ne by done. apply IH.
      destruct Hin as [Hin | Hin]; [done |].
      apply list_elem_of_singleton in Hin. congruence.
Qed.

Lemma record_twice (m : SrcRangeMap) calls :
  foldl record (foldl record m calls) calls = foldl record m calls.
Proof.
  apply map_eq. intros n. destruct (decide (n ∈ calls.*1)) as [Hin | Hnot].
  - by apply record_lookup_in.
  - by rewrite !record_lookup_notin.
Qed.

(** ** Flattening: the claims *)

Lemma recordedSpans_slice (desc : SrcDesc) (sm : SrcRangeMap) sp :
  noSplit [] (fragments desc) = true →
  sp ∈ recordedSpans desc →
  0 ≤ span_start sp ∧ 0 ≤ span_length sp
  ∧ span_end sp ≤ strByteLen (descToSourceString desc sm).1
  ∧ byteSlice (utf8 (descToSourceString desc sm).1) (span_start sp) (span_length sp)
    = utf8 (descToSourceString (span_desc sp) ∅).1.
Proof.
  intros Hclean Hin. rewrite !descToSourceString_spec. cbn [fst].
  apply descSpans_placed in Hin.
  pose proof (spanPlaced_bounds _ _ _ Hin) as (Hstart & Hlen & _).
  destruct (spanPlaced_slice _ _ Hclean Hin) as [Hslice Hend].
  rewrite descText_fragments_of. done.
Qed.

Lemma elem_of_entries_span (desc : SrcDesc) node nodeDesc :
  (node, nodeDesc) ∈ entries desc ↔
  ∃ sp, sp ∈ recordedSpans desc ∧ span_node sp = node ∧ span_desc sp = nodeDesc.
Proof.
  unfold recordedSpans. rewrite <- (descSpans_entries desc 0), list_elem_of_fmap.
  unfold spanEntry. split.
  - intros (sp & [= -> ->] & Hin). by exists sp.
  - intros (sp & Hin & <- & <-). by exists sp.
Qed.

Lemma recordedSpans_lookup (desc : SrcDesc) (sm : SrcRangeMap) sp :
  NoDup (descNodes desc) → sp ∈ recordedSpans desc →
  (descToSourceString desc sm).2 !! span_node sp = Some (span_start sp, span_length sp).
Proof.
  intros Hnd Hin. rewrite descToSourceString_spec. cbn [snd].
  apply record_lookup_NoDup.
  - by rewrite setCalls_nodes.
  - apply elem_of_setCalls. by exists sp.
Qed.

(** C1. Exact slice, when no surrogate pair is split between two
    fragments: no fragment starts with a low surrogate right after text that
    ends with a high surrogate. The map that [descToSourceString] leaves is
    the given one after one [set] call per association entry, and the text is
    the fragments joined; the range of each call lies within the text and,
    taken as a byte slice of it, is the text that the entry's own nested
    description flattens to with a fresh map. So is the range the map ends up
    holding for a node of the description, for one of that node's entries;
    and when no node is the key of two entries, for every entry. *)
Theorem exact_slice (desc : SrcDesc) (sm : SrcRangeMap) :
  noSplit [] (fragments desc) = true →
  let text := (descToSourceString desc sm).1 in
  let map := (descToSourceString desc sm).2 in
  map = foldl record sm (spanCall <$> recordedSpans desc)
  ∧ spanEntry <$> recordedSpans desc = entries desc
  ∧ text = mjoin (fragments desc)
  ∧ (∀ sp, sp ∈ recordedSpans desc →
       0 ≤ span_start sp ∧ 0 ≤ span_length sp ∧ span_end sp ≤ strByteLen text
       ∧ byteSlice (utf8 text) (span_start sp) (span_length sp)
         = utf8 (descToSourceString (span_desc sp) ∅).1)
  ∧ (∀ node start len,
       node ∈ descNodes desc → map !! node = Some (start, len) →
       ∃ nodeDesc, (node, nodeDesc) ∈ entries desc
         ∧ 0 ≤ start ∧ 0 ≤ len ∧ start + len ≤ strByteLen text
         ∧ byteSlice (utf8 text) start len = utf8 (descToSourceString nodeDesc ∅).1)
  ∧ (NoDup (descNodes desc) →
     ∀ node nodeDesc, (node, nodeDesc) ∈ entries desc →
       ∃ start len, map !! node = Some (start, len)
         ∧ 0 ≤ start ∧ 0 ≤ len ∧ start + len ≤ strByteLen text
         ∧ byteSlice (utf8 text) start len = utf8 (descToSourceString nodeDesc ∅).1).
Proof.
  intros Hclean. cbn zeta. split; [by rewrite descToSourceString_spec |].
  split; [apply descSpans_entries |].
  split; [by rewrite descToSourceString_spec, descText_fragments_of |].
  split; [intros sp; by apply recordedSpans_slice |].
  split.
  - intros node start len Hnode Hmap.
    rewrite descToSourceString_spec in Hmap. cbn [snd] in Hmap.
    apply record_lookup_inv in Hmap as [[Hnot _] | Hcall].
    { by rewrite setCalls_nodes in Hnot. }
    apply elem_of_setCalls in Hcall as (sp & Hin & <- & [= <- <-]).
    exists (span_desc sp). split.
    + apply elem_of_entries_span. by exists sp.
    + by apply recordedSpans_slice.
  - intros Hnd node nodeDesc Hentry.
    apply elem_of_entries_span in Hentry as (sp & Hin & <- & <-).
    exists (span_start sp), (span_length sp). split.
    + by apply recordedSpans_lookup.
    + by apply recordedSpans_slice.
Qed.

Lemma exact_slice_witness :
  noSplit [] (fragments example_desc) = true
  ∧ (descToSourceString example_desc ∅).2 !! nodeB = Some (6, 3)
  ∧ byteSlice (utf8 (descToSourceString example_desc ∅).1) 6 3 = utf8 (str "bar").
Proof.
  split; [reflexivity |]. split; [reflexivity |].
  destruct (exact_slice example_desc ∅ eq_refl) as (_ & _ & _ & Hspans & _).
  refine (proj2 (proj2 (proj2 (Hspans (mkSpan nodeB [Str (str "bar")] 6 3 []) _)))).
  apply (list_elem_of_lookup_2 _ 1%nat). reflexivity.
Defined.

(** The two halves of U+1F600 come in two fragments of A's description:
    each is counted as 3 bytes, the text has the character in 4. The range
    of A is longer than the text of A, and the range of B lies past the "x"
    that B stands for. *)
Lemma exact_slice_counterexample :
  let result := descToSourceString split_pair_desc ∅ in
  result.1 = [0xD83D; 0xDE00; 0x78]%N
  ∧ utf8 result.1 = [0xF0; 0x9F; 0x98; 0x80; 0x78]%N
  ∧ result.2 !! nodeA = Some (0, 6)
  ∧ result.2 !! nodeB = Some (6, 1)
  ∧ byteSlice (utf8 result.1) 0 6
    ≠ utf8 (descToSourceString [Str [0xD83D%N]; Str [0xDE00%N]] ∅).1
  ∧ byteSlice (utf8 result.1) 6 1 ≠ utf8 (descToSourceString [Str (str "x")] ∅).1.
Proof.
  cbn zeta. split; [reflexivity |]. split; [reflexivity |].
  split; [reflexivity |]. split; [reflexivity |].
  split; vm_compute; discriminate.
Qed.

(** C2. Ranges form a tree. The recorded ranges, nested as the [set] calls
    are, make a forest of the shape of the description's association entries;
    a range recorded at any depth inside an entry lies within that entry's
    range; and of two entries of one nesting level the earlier one ends where
    the later one starts, or before. When no node is the key of two entries,
    these ranges are the ones the map holds. *)
Theorem ranges_form_tree (desc : SrcDesc) (sm : SrcRangeMap) :
  let forest := descSpans 0 desc in
  (descToSourceString desc sm).2 = foldl record sm (spanCall <$> allSpans forest)
  ∧ spanShape <$> forest = desc ≫= assocOnly
  ∧ (∀ outer inner_,
       outer ∈ allSpans forest → inner_ ∈ allSpans (span_inner outer) →
       span_start outer ≤ span_start inner_ ∧ span_end inner_ ≤ span_end outer)
  ∧ (∀ level,
       level = forest ∨ (∃ outer, outer ∈ allSpans forest ∧ level = span_inner outer) →
       ∀ (i j : nat) a b,
         (i < j)%nat → level !! i = Some a → level !! j = Some b →
         span_end a ≤ span_start b)
  ∧ (NoDup (descNodes desc) →
     ∀ sp, sp ∈ allSpans forest →
       (descToSourceString desc sm).2 !! span_node sp
       = Some (span_start sp, span_length sp)).
Proof.
  cbn zeta. split; [by rewrite descToSourceString_spec |].
  split; [apply descSpans_shape |].

  assert (Hinner : ∀ outer, outer ∈ allSpans (descSpans 0 desc) →
            span_inner outer = descSpans (span_start outer) (span_desc outer)
            ∧ span_length outer = descLen (span_desc outer)).
  { intros outer Hin. apply descSpans_placed in Hin as (Hlen & Hinner & _). done. }
  split; [| split].
  - intros outer inner_ Houter Hin.
    destruct (Hinner outer Houter) as [Heq Hlen]. rewrite Heq in Hin.
    apply descSpans_placed, spanPlaced_bounds in Hin.
    unfold span_end in *. rewrite Hlen. fold (descLen (span_desc outer)) in Hin. lia.
  - intros level [-> | (outer & Houter & ->)] i j a b Hij Ha Hb.
    + by eapply descSpans_ordered.
    + destruct (Hinner outer Houter) as [Heq _]. rewrite Heq in Ha, Hb.
      by eapply descSpans_ordered.
  - intros Hnd sp. by apply recordedSpans_lookup.
Qed.

Lemma descToSourceString_eval (desc : SrcDesc) (sm : SrcRangeMap) text calls :
  descText desc = text → setCalls (descSpans 0 desc) = calls →
  descToSourceString desc sm = (text, foldl record sm calls).
Proof. intros <- <-. apply descToSourceString_spec. Qed.

(** C3. The end-to-end example: [[X, [[A, ["foo"]], " + ", [B, ["bar"]]]]]
    flattened with an empty map gives "foo + bar" and the map
    A -> (0,3), B -> (6,3), X -> (0,9), its three keys being the three nodes. *)
Theorem end_to_end_example (X A B : ASTNode) :
  let result :=
    descToSourceString
      [Assoc X [Assoc A [Str (str "foo")]; Str (str " + "); Assoc B [Str (str "bar")]]] ∅ in
  result = (str "foo + bar", <[X := (0, 9)]> (<[B := (6, 3)]> (<[A := (0, 3)]> ∅)))
  ∧ dom result.2 = {[A; B; X]}.
Proof.
  cbn zeta.
  rewrite (descToSourceString_eval _ _ (str "foo + bar") [(A, (0, 3)); (B, (6, 3)); (X, (0, 9))])
    by (vm_compute; reflexivity).
  split; [reflexivity |].
  cbn. rewrite !dom_insert_L, dom_empty_L. apply set_eq. intros n.
  rewrite !elem_of_union, !elem_of_singleton, elem_of_empty. tauto.
Qed.

(** C4. A text fragment advances [size] by the number of bytes of its
    encoding, whatever its number of characters; a fragment of one character
    that is encoded in 3 bytes advances it by 3, and 3 is the length recorded
    for an entry that holds just this fragment. *)
Theorem size_counts_bytes (st : FlatState) (s : jsString) (c : char) (node : ASTNode) :
  length (utf8_char c) = 3%nat →
  size (helper [Str s] st) = size st + Z.of_nat (length (utf8 s))
  ∧ length [c] = 1%nat
  ∧ size (helper [Str [c]] st) = size st + 3
  ∧ descToSourceString [Assoc node [Str [c]]] ∅ = ([c], {[node := (0, 3)]}).
Proof.
  intros Hc.
  assert (Hlen : strByteLen [c] = 3).
  { unfold strByteLen. rewrite utf8_cons. change (utf8 []) with (@nil byte).
    rewrite !app_nil_r. destruct (isHighSurrogate c), (isLowSurrogate c);
      by rewrite ?Hc. }
  split; [reflexivity |]. split; [reflexivity |].
  split; [cbn; by rewrite Hlen |].
  rewrite (descToSourceString_eval _ _ [c] [(node, (0, 3))]).
  - reflexivity.
  - reflexivity.
  - unfold setCalls, descSpans. cbn. unfold spanCall, descLen, descText. cbn.
    by rewrite Hlen.
Qed.

(** The euro sign, U+20AC, is encoded as E2 82 AC. *)
Lemma size_counts_bytes_witness :
  utf8_char 0x20AC%N = [0xE2; 0x82; 0xAC]%N
  ∧ size (helper [Str [0x20AC%N]] (mkFlatState [] 0 ∅)) = 3
  ∧ descToSourceString [Assoc nodeA [Str [0x20AC%N]]] ∅ = ([0x20AC%N], {[nodeA := (0, 3)]}).
Proof.
  split; [reflexivity |].
  pose proof (size_counts_bytes (mkFlatState [] 0 ∅) [] 0x20AC%N nodeA eq_refl)
    as (_ & _ & Hsize & Hmap).
  split; [exact Hsize | exact Hmap].
Defined.

(** ** Flattening with the objects in a store *)

Lemma withMap_id ref m σ : sourceMaps σ !! ref = Some m → withMap ref m σ = σ.
Proof. intros Hm. destruct σ. unfold withMap. cbn in *. by rewrite insert_id. Qed.

Lemma withMap_withMap ref m m' σ : withMap ref m' (withMap ref m σ) = withMap ref m' σ.
Proof. unfold withMap. cbn. by rewrite insert_insert_eq. Qed.

Lemma readElements_withMap ref m σ recur elements :
  readElements (withMap ref m σ) recur elements = readElements σ recur elements.
Proof. reflexivity. Qed.

Lemma readDesc_withMap fuel ref m σ loc :
  readDesc fuel (withMap ref m σ) loc = readDesc fuel σ loc.
Proof.
  revert loc. induction fuel as [| fuel IH]; intros loc; [done |].
  cbn [readDesc]. change (arrays (withMap ref m σ)) with (arrays σ).
  destruct (arrays σ !! loc) as [elements |]; [| done]. cbn.
  induction elements as [| [s | element] rest IHrest]; [done | |].
  - cbn [readElements] in *. by rewrite IHrest.
  - cbn [readElements] in *. change (pairs (withMap ref m σ)) with (pairs σ).
    destruct (pairs σ !! element) as [[node nodeDesc] |]; [| done]. cbn.
    by rewrite IH, IHrest.
Qed.

(** The loop over the elements of a stored array does what the loop over
    the description read from the store does, and writes nothing but the map
    it was given. *)
Lemma helperLoop_spec fuel ref :
  (∀ loc st m d,
     sourceMaps (st_store st) !! ref = Some m →
     readDesc fuel (st_store st) loc = Some d →
     helperAt fuel ref loc st
     = Some (afterRun ref st (helper d (mkFlatState (st_source st) (st_size st) m)))) →
  ∀ elements st m d,
    sourceMaps (st_store st) !! ref = Some m →
    readElements (st_store st) (readDesc fuel (st_store st)) elements = Some d →
    helperLoop (helperAt fuel ref) ref elements st
    = Some (afterRun ref st (helper d (mkFlatState (st_source st) (st_size st) m))).
Proof.
  intros Hrecur elements. induction elements as [| element rest IH]; intros st m d Hm Hread.
  - injection Hread as <-. destruct st as [src sz σ]. unfold afterRun. cbn in *.
    by rewrite withMap_id.
  - destruct element as [s | element]; cbn [readElements helperLoop] in *.
    + destruct (readElements _ _ rest) as [d' |] eqn:Hrest; [| done].
      injection Hread as <-.
      exact (IH (mkStoreState (st_source st ++ s) (st_size st + strByteLen s) (st_store st))
               m d' Hm Hrest).
    + destruct (pairs (st_store st) !! element) as [[node nodeDesc] |]; [| done].
      cbn in Hread |- *.
      destruct (readDesc fuel (st_store st) nodeDesc) as [nested |] eqn:Hnested; [| done].
      cbn in Hread.
      destruct (readElements _ _ rest) as [d' |] eqn:Hrest; [| done].
      injection Hread as <-.
      rewrite (Hrecur _ _ m nested Hm Hnested). cbn.
      set (fs := helper nested (mkFlatState (st_source st) (st_size st) m)).
      unfold setAt. cbn. rewrite lookup_insert_eq. cbn.
      set (m' := <[node := (st_size st, size fs - st_size st)]> (sourceMap fs)).
      rewrite insert_insert_eq.
      change (mkStore (arrays (st_store st)) (pairs (st_store st))
                (<[ref := m']> (sourceMaps (st_store st))))
        with (withMap ref m' (st_store st)).
      rewrite (IH (mkStoreState (source fs) (size fs) (withMap ref m' (st_store st))) m' d').
      * unfold afterRun. cbn [st_store]. by rewrite withMap_withMap.
      * cbn. apply lookup_insert_eq.
      * cbn [st_store]. rewrite <- Hrest. clear.
        induction rest as [| [s | element] rest IHrest]; [done | |].
        -- cbn [readElements]. by rewrite IHrest.
        -- cbn [readElements]. change (pairs (withMap ref m' (st_store st)))
             with (pairs (st_store st)).
           destruct (pairs (st_store st) !! element) as [[n nd] |]; [| done]. cbn.
           by rewrite readDesc_withMap, IHrest.
Qed.

Lemma helperAt_spec fuel ref loc st m d :
  sourceMaps (st_store st) !! ref = Some m →
  readDesc fuel (st_store st) loc = Some d →
  helperAt fuel ref loc st
  = Some (afterRun ref st (helper d (mkFlatState (st_source st) (st_size st) m))).
Proof.
  revert loc st m d. induction fuel as [| fuel IH]; intros loc st m d Hm Hread; [done |].
  cbn [readDesc helperAt] in *.
  destruct (arrays (st_store st) !! loc) as [elements |]; [| done]. cbn in *.
  by apply helperLoop_spec.
Qed.

(** On references, [descToSourceString] returns the text of the description
    it reads and leaves the store with the arrays and pairs as they were and
    the one map flattened into. *)
Lemma descToSourceStringAt_spec fuel desc ref σ m d :
  sourceMaps σ !! ref = Some m →
  readDesc fuel σ desc = Some d →
  descToSourceStringAt fuel desc ref σ
  = Some ((descToSourceString d m).1, withMap ref (descToSourceString d m).2 σ).
Proof.
  intros Hm Hread. unfold descToSourceStringAt.
  by rewrite (helperAt_spec fuel ref desc (mkStoreState [] 0 σ) m d Hm Hread).
Qed.

(** C9. Two runs, one after the other, on the same description, each with
    a source map of its own that is empty: both return, with the same text,
    and the two maps end with the same entries; the arrays and pairs of the
    description are as they were and no other map has changed. The text and
    the entries are those of the description that the store holds. *)
Theorem flatten_twice (fuel : nat) (σ : Store) (desc map1 map2 : Loc) (d : SrcDesc) :
  readDesc fuel σ desc = Some d →
  map1 ≠ map2 →
  sourceMaps σ !! map1 = Some ∅ →
  sourceMaps σ !! map2 = Some ∅ →
  ∃ text entries σ1 σ2,
    descToSourceStringAt fuel desc map1 σ = Some (text, σ1)
    ∧ descToSourceStringAt fuel desc map2 σ1 = Some (text, σ2)
    ∧ sourceMaps σ2 !! map1 = Some entries
    ∧ sourceMaps σ2 !! map2 = Some entries
    ∧ arrays σ1 = arrays σ ∧ pairs σ1 = pairs σ
    ∧ arrays σ2 = arrays σ ∧ pairs σ2 = pairs σ
    ∧ (∀ other, other ≠ map1 → other ≠ map2 →
         sourceMaps σ2 !! other = sourceMaps σ !! other)
    ∧ descToSourceString d ∅ = (text, entries).
Proof.
  intros Hread Hne Hmap1 Hmap2.
  set (σ1 := withMap map1 (descToSourceString d ∅).2 σ).
  set (σ2 := withMap map2 (descToSourceString d ∅).2 σ1).
  exists (descToSourceString d ∅).1, (descToSourceString d ∅).2, σ1, σ2.
  split; [by apply descToSourceStringAt_spec |].
  split.
  { apply (descToSourceStringAt_spec fuel desc map2 σ1 ∅ d).
    - cbn. by rewrite lookup_insert_ne.
    - unfold σ1. by rewrite readDesc_withMap. }
  split; [cbn; by rewrite lookup_insert_ne, lookup_insert_eq |].
  split; [cbn; by rewrite lookup_insert_eq |].
  do 4 (split; [reflexivity |]).
  split; [| by destruct (descToSourceString d ∅)].
  intros other Hne1 Hne2. cbn. by rewrite !lookup_insert_ne.
Qed.

Lemma flatten_twice_witness :
  readDesc 3 example_store 0%N = Some example_desc
  ∧ sourceMaps example_store !! 10%N = Some ∅
  ∧ sourceMaps example_store !! 11%N = Some ∅
  ∧ ∃ entries σ1 σ2,
      descToSourceStringAt 3 0%N 10%N example_store = Some (str "foo + bar", σ1)
      ∧ descToSourceStringAt 3 0%N 11%N σ1 = Some (str "foo + bar", σ2)
      ∧ sourceMaps σ2 !! 10%N = Some entries
      ∧ sourceMaps σ2 !! 11%N = Some entries
      ∧ entries !! nodeX = Some (0, 9).
Proof.
  split; [reflexivity |]. split; [reflexivity |]. split; [reflexivity |].
  destruct (flatten_twice 3 example_store 0%N 10%N 11%N example_desc
              eq_refl ltac:(discriminate) eq_refl eq_refl)
    as (text & entries & σ1 & σ2 & Hrun1 & Hrun2 & Hm1 & Hm2 & _ & _ & _ & _ & _ & Hpure).
  assert (Htext : text = str "foo + bar") by exact (eq_sym (f_equal fst Hpure)).
  assert (Hentries : entries = (descToSourceString example_desc ∅).2)
    by exact (eq_sym (f_equal snd Hpure)).
  subst text. exists entries, σ1, σ2.
  repeat split; try assumption. by rewrite Hentries.
Defined.

Lemma write_unfold fuel W node sourceMap1 :
  write fuel W node sourceMap1 =
  match desc fuel W [ArgNode node] with
  | Returns d =>
      (Returns (descToSourceString d (default ∅ sourceMap1)).1,
       (descToSourceString d (default ∅ sourceMap1)).2)
  | Throws e => (Throws e, default ∅ sourceMap1)
  | OutOfFuel => (OutOfFuel, default ∅ sourceMap1)
  end.
Proof.
  unfold write. destruct (desc fuel W [ArgNode node]); try done.
Qed.

(** C10. Frame. Flattening into a map that already has entries leaves the
    entry, or the absence of an entry, of every node that is not the node of
    an association entry as it was, and gives every node of an association
    entry a range; the text is the one an empty map gives. [write] flattens
    the description that [desc] builds for the node in the same way, and
    leaves the map alone when [desc] does not return. *)
Theorem flatten_frame (description : SrcDesc) (sm : SrcRangeMap)
    (fuel : nat) (W : ASTWriter) (root : ASTNode) :
  (∀ node, node ∉ descNodes description →
     (descToSourceString description sm).2 !! node = sm !! node)
  ∧ (∀ node, node ∈ descNodes description →
     is_Some ((descToSourceString description sm).2 !! node))
  ∧ (descToSourceString description sm).1 = (descToSourceString description ∅).1
  ∧ match desc fuel W [ArgNode root] with
    | Returns built =>
        write fuel W root (Some sm)
        = (Returns (descToSourceString built ∅).1, (descToSourceString built sm).2)
        ∧ ∀ node, node ∉ descNodes built →
            (write fuel W root (Some sm)).2 !! node = sm !! node
    | _ => (write fuel W root (Some sm)).2 = sm
    end.
Proof.
  assert (Hframe : ∀ d node, node ∉ descNodes d →
            (descToSourceString d sm).2 !! node = sm !! node).
  { intros d node Hnot. rewrite descToSourceString_spec. cbn [snd].
    apply record_lookup_notin. by rewrite setCalls_nodes. }
  split; [apply Hframe |]. split.
  - intros node Hin. rewrite descToSourceString_spec. cbn [snd].
    rewrite <- (setCalls_nodes description 0) in Hin.
    apply list_elem_of_fmap in Hin as ([n r] & -> & Hin). cbn.
    destruct (foldl record sm (setCalls (descSpans 0 description)) !! n) as [r' |] eqn:Hl; [by eexists |].
    exfalso. assert (Hn : n ∈ (setCalls (descSpans 0 description)).*1).
    { apply list_elem_of_fmap. by exists (n, r). }
    rewrite (record_lookup_in _ (<[n := r]> ∅) _ _ Hn) in Hl.
    clear Hin. revert Hn Hl. generalize (setCalls (descSpans 0 description)).
    intros calls. induction calls as [| [n' r''] calls IH] using rev_ind.
    + intros Hn. by apply elem_of_nil in Hn.
    + rewrite record_snoc. cbn. intros _. destruct (decide (n' = n)) as [-> | Hne].
      * by rewrite lookup_insert_eq.
      * rewrite lookup_insert_ne by done.
        destruct (decide (n ∈ calls.*1)) as [Hn | Hn]; [by apply IH |].
        rewrite record_lookup_notin by done. by rewrite lookup_insert_eq.
  - split; [by rewrite !descToSourceString_spec |].
    rewrite write_unfold. cbn [default].
    destruct (desc fuel W [ArgNode root]) as [built | e |]; [| done | done].
    split.
    + by rewrite !descToSourceString_spec.
    + intros node Hnot. cbn [snd]. by apply Hframe.
Qed.

(** ** The description builder *)

Lemma descLoop_cons W this_desc arg rest result :
  descLoop W this_desc (arg :: rest) result
  = (whole ← argStep W this_desc arg; descLoop W this_desc rest (result ++ whole)).
Proof.
  unfold argStep.
  destruct arg as [| | s | node | value]; cbn [descLoop].
  - cbn. by rewrite app_nil_r.
  - cbn. by rewrite app_nil_r.
  - reflexivity.
  - destruct (mapping W !! constructor node) as [writer |]; [| by destruct (print node)].
    by destruct (writeWhole writer node this_desc).
  - destruct (mapping W !! constructor (other_object value)) as [writer |];
      [| by destruct (JSON_stringify value)].
    by destruct (writeWhole writer (other_object value) this_desc).
Qed.

Lemma descLoop_result W this_desc args result :
  descLoop W this_desc args result
  = (built ← descLoop W this_desc args []; Returns (result ++ built)).
Proof.
  revert result. induction args as [| arg rest IH]; intros result.
  - cbn. by rewrite app_nil_r.
  - rewrite !descLoop_cons.
    destruct (argStep W this_desc arg) as [whole | e |]; cbn; [| done | done].
    rewrite (IH (result ++ whole)), (IH whole).
    destruct (descLoop W this_desc rest []); cbn; [| done | done].
    by rewrite <- app_assoc.
Qed.

Lemma descLoop_app W this_desc args1 args2 result :
  descLoop W this_desc (args1 ++ args2) result
  = (built ← descLoop W this_desc args1 result; descLoop W this_desc args2 built).
Proof.
  revert result. induction args1 as [| arg rest IH]; intros result; [done |].
  cbn [app]. rewrite !descLoop_cons.
  destruct (argStep W this_desc arg) as [whole | e |]; cbn; [| done | done].
  apply IH.
Qed.

(** [desc] of a concatenation of argument lists is the concatenation of the
    descriptions, when the first list gets through. *)
Lemma desc_app fuel W args1 args2 built1 :
  desc (S fuel) W args1 = Returns built1 →
  desc (S fuel) W (args1 ++ args2)
  = (built2 ← desc (S fuel) W args2; Returns (built1 ++ built2)).
Proof.
  cbn [desc]. intros H1. rewrite descLoop_app, H1. cbn.
  apply descLoop_result.
Qed.

Lemma descLoop_omitted W this_desc args result :
  descLoop W this_desc (List.filter (λ arg, negb (isOmitted arg)) args) result
  = descLoop W this_desc args result.
Proof.
  revert result. induction args as [| arg rest IH]; intros result; [done |].
  destruct arg as [| | s | node | value]; cbn [List.filter isOmitted negb];
    try apply IH; rewrite !descLoop_cons;
    destruct (argStep _ _ _) as [whole | e |]; cbn; try done; apply IH.
Qed.

(** C5. Skip semantics. [null] and [undefined] arguments contribute
    nothing: [desc] gives the same outcome with them as without them;
    [desc(null, "a", undefined, "b")] and [desc("a", "b")] both return the
    two fragments "a", "b" and nothing more, and that description flattens
    to "ab". *)
Theorem desc_skips_omitted (W : ASTWriter) (fuel : nat) (args : DescArgs) :
  desc (S fuel) W (List.filter (λ arg, negb (isOmitted arg)) args) = desc (S fuel) W args
  ∧ desc (S fuel) W [ArgNull; ArgString (str "a"); ArgUndefined; ArgString (str "b")]
    = Returns [Str (str "a"); Str (str "b")]
  ∧ desc (S fuel) W [ArgString (str "a"); ArgString (str "b")]
    = Returns [Str (str "a"); Str (str "b")]
  ∧ (descToSourceString [Str (str "a"); Str (str "b")] ∅).1 = str "ab".
Proof.
  split; [apply descLoop_omitted |]. by repeat split.
Qed.

(** C6. Splicing. The description that a registered strategy's [writeWhole]
    returns for a node argument takes the node's place in the result, between
    what the arguments before it and after it give; with the inherited
    [writeWhole], [desc(a, nodeX, b)] is the three-element sequence of the
    fragment [a], the entry [[nodeX, writeInner(nodeX)]] and the fragment
    [b]. *)
Theorem desc_splices_writeWhole (W : ASTWriter) (fuel : nat)
    (node : ASTNode) (writer : ASTNodeWriter) (a b : jsString)
    (before after : DescArgs) (whole inner built1 built2 : SrcDesc) :
  mapping W !! constructor node = Some writer →
  writeWhole writer node (desc fuel W) = Returns whole →
  desc (S fuel) W before = Returns built1 →
  desc (S fuel) W after = Returns built2 →
  desc (S fuel) W (before ++ ArgNode node :: after) = Returns (built1 ++ whole ++ built2)
  ∧ desc (S fuel) W [ArgString a; ArgNode node; ArgString b]
    = Returns ([Str a] ++ whole ++ [Str b])
  ∧ (writeWhole writer = writeWhole_default (writeInner writer) →
     writeInner writer node (desc fuel W) = Returns inner →
     desc (S fuel) W [ArgString a; ArgNode node; ArgString b]
     = Returns [Str a; Assoc node inner; Str b]).
Proof.
  intros Hwriter Hwhole Hbefore Hafter.
  assert (Hnode : ∀ rest built,
            desc (S fuel) W rest = Returns built →
            desc (S fuel) W (ArgNode node :: rest) = Returns (whole ++ built)).
  { intros rest built Hrest. cbn [desc] in *. cbn [descLoop].
    rewrite Hwriter, Hwhole. cbn. rewrite descLoop_result, Hrest. done. }
  assert (Habc : desc (S fuel) W [ArgString a; ArgNode node; ArgString b]
                 = Returns ([Str a] ++ whole ++ [Str b])).
  { change (desc (S fuel) W ([ArgString a] ++ ArgNode node :: [ArgString b])
            = Returns ([Str a] ++ whole ++ [Str b])).
    rewrite (desc_app fuel W [ArgString a] _ [Str a]) by done.
    by rewrite (Hnode [ArgString b] [Str b]). }
  split; [| split; [exact Habc |]].
  - rewrite (desc_app _ _ _ _ _ Hbefore). by rewrite (Hnode _ _ Hafter).
  - intros Hdefault Hinner. rewrite Habc.
    rewrite Hdefault in Hwhole. unfold writeWhole_default in Hwhole.
    rewrite Hinner in Hwhole. cbn in Hwhole. by injection Hwhole as <-.
Qed.

Lemma desc_splices_writeWhole_witness :
  mapping example_writer !! constructor nodeA = Some IdentifierWriter
  ∧ writeWhole IdentifierWriter nodeA (desc 1 example_writer)
    = Returns [Assoc nodeA [Str (str "foo")]]
  ∧ desc 2 example_writer
      [ArgString (str "return "); ArgNode nodeA; ArgString (str ";")]
    = Returns [Str (str "return "); Assoc nodeA [Str (str "foo")]; Str (str ";")]
  ∧ desc 2 example_writer
      ([ArgNull; ArgString (str "(")] ++ ArgNode nodeA :: [ArgString (str ")")])
    = Returns ([Str (str "(")] ++ [Assoc nodeA [Str (str "foo")]] ++ [Str (str ")")]).
Proof.
  split; [reflexivity |]. split; [reflexivity |].
  pose proof (desc_splices_writeWhole example_writer 1 nodeA IdentifierWriter
                (str "return ") (str ";") [ArgNull; ArgString (str "(")] [ArgString (str ")")]
                [Assoc nodeA [Str (str "foo")]] [Str (str "foo")]
                [Str (str "(")] [Str (str ")")]
                eq_refl eq_refl eq_refl eq_refl) as (Hsplice & _ & Hdefault).
  split; [exact (Hdefault eq_refl eq_refl) | exact Hsplice].
Defined.









(** ** The pipeline on the sample registry *)

Lemma write_example :
  ∃ m, write 3 example_writer nodeX None = (Returns (str "foo + bar"), m)
       ∧ m !! nodeA = Some (0, 3) ∧ m !! nodeB = Some (6, 3) ∧ m !! nodeX = Some (0, 9)
       ∧ m !! nodeU = None.
Proof.
  eexists. split.
  - rewrite write_unfold.
    change (desc 3 example_writer [ArgNode nodeX]) with (Returns example_desc).
    cbv beta iota. cbn [default].
    rewrite (descToSourceString_eval example_desc _ (str "foo + bar")
               [(nodeA, (0, 3)); (nodeB, (6, 3)); (nodeX, (0, 9))]) by reflexivity.
    reflexivity.
  - by repeat split.
Qed.

(** A node that is the key of two entries keeps the range of the later one. *)
Lemma repeated_node_example (A : ASTNode) :
  descToSourceString [Assoc A [Str (str "foo")]; Assoc A [Str (str "bar")]] ∅
  = (str "foobar", {[A := (3, 3)]}).
Proof.
  rewrite (descToSourceString_eval _ _ (str "foobar") [(A, (0, 3)); (A, (3, 3))])
    by reflexivity.
  cbn. by rewrite insert_insert_eq.
Qed.

(** Text that a strategy puts after the entry stays out of the node's range. *)
Lemma terminator_example (S_ : ASTNode) :
  descToSourceString [Assoc S_ [Str (str "a=1")]; Str (str ";")] ∅
  = (str "a=1;", {[S_ := (0, 3)]}).
Proof.
  by rewrite (descToSourceString_eval _ _ (str "a=1;") [(S_, (0, 3))]) by reflexivity.
Qed.

(** * Further properties of the writer *)

(** ** Shared lemmas *)

Lemma descText_app (d1 d2 : SrcDesc) : descText (d1 ++ d2) = descText d1 ++ descText d2.
Proof. unfold descText. apply bind_app. Qed.

Lemma fragments_app (d1 d2 : SrcDesc) : fragments (d1 ++ d2) = fragments d1 ++ fragments d2.
Proof. unfold fragments. apply bind_app. Qed.

Lemma finalSize_descLen (d : SrcDesc) : finalSize d = descLen d.
Proof. unfold finalSize. rewrite helper_spec. cbn [size]. lia. Qed.

(** Without split pairs [size] ends as the byte length of the text. *)
Lemma finalSize_text (d : SrcDesc) (sm : SrcRangeMap) :
  noSplit [] (fragments d) = true →
  finalSize d = strByteLen (descToSourceString d sm).1.
Proof.
  intros Hclean. rewrite finalSize_descLen, descToSourceString_spec. cbn [fst].
  rewrite descText_fragments_of. by apply fragmentsLen_text.
Qed.

Lemma descSpans_app (d1 d2 : SrcDesc) at_ :
  descSpans at_ (d1 ++ d2) = descSpans at_ d1 ++ descSpans (at_ + descLen d1) d2.
Proof.
  revert at_. induction d1 as [| e d1 IH]; intros at_.
  - cbn [app]. change (descLen []) with 0. by rewrite Z.add_0_r.
  - cbn [app]. rewrite !descSpans_cons, IH, descLen_cons, <- app_assoc.
    do 3 f_equal. lia.
Qed.

Lemma setCalls_shift_from (d : SrcDesc) k :
  Forall (λ e, ∀ at_, setCalls (elementSpans (at_ + k) e)
                      = shiftCall k <$> setCalls (elementSpans at_ e)) d →
  ∀ at_, setCalls (descSpans (at_ + k) d) = shiftCall k <$> setCalls (descSpans at_ d).
Proof.
  induction 1 as [| e d He _ IH]; intros at_; [done |].
  rewrite !descSpans_cons, !setCalls_app, fmap_app, He, <- IH.
  do 3 f_equal. lia.
Qed.

Lemma elementSpans_shift e k at_ :
  setCalls (elementSpans (at_ + k) e) = shiftCall k <$> setCalls (elementSpans at_ e).
Proof.
  revert at_.
  induction e as [s | node nodeDesc IH] using SrcDescElement_nested_ind; intros at_.
  - reflexivity.
  - rewrite !elementSpans_Assoc, !setCalls_singleton, fmap_app. cbn [span_inner].
    by rewrite (setCalls_shift_from _ _ IH).
Qed.

(** Entering a description [k] bytes later moves every recorded start by [k]. *)
Lemma setCalls_shift (d : SrcDesc) k at_ :
  setCalls (descSpans (at_ + k) d) = shiftCall k <$> setCalls (descSpans at_ d).
Proof. by_elements setCalls_shift_from elementSpans_shift. Qed.

Lemma record_lookup_shift (m : SrcRangeMap) calls k n :
  foldl record m (shiftCall k <$> calls) !! n =
  match foldl record ∅ calls !! n with
  | Some (start, len) => Some (start + k, len)
  | None => m !! n
  end.
Proof.
  induction calls as [| [n' [s l]] calls IH] using rev_ind; [done |].
  rewrite fmap_app.
  change (shiftCall k <$> [(n', (s, l))]) with [(n', (s + k, l))].
  rewrite !record_snoc. cbn.
  destruct (decide (n' = n)) as [-> | Hne].
  - by rewrite !lookup_insert_eq.
  - by rewrite !lookup_insert_ne.
Qed.

Lemma record_dom (m : SrcRangeMap) calls n :
  n ∈ dom (foldl record m calls) ↔ n ∈ dom m ∨ n ∈ calls.*1.
Proof.
  induction calls as [| [n' r'] calls IH] using rev_ind.
  - cbn. rewrite elem_of_nil. tauto.
  - rewrite record_snoc, fmap_app, elem_of_app. cbn.
    rewrite dom_insert, elem_of_union, elem_of_singleton, list_elem_of_singleton, IH.
    intuition congruence.
Qed.

Lemma flatten_calls_app (d1 d2 : SrcDesc) :
  setCalls (descSpans 0 (d1 ++ d2))
  = setCalls (descSpans 0 d1) ++ (shiftCall (descLen d1) <$> setCalls (descSpans 0 d2)).
Proof. by rewrite descSpans_app, setCalls_app, setCalls_shift. Qed.

Lemma flatten_Assoc (node : ASTNode) (nodeDesc : SrcDesc) (sm : SrcRangeMap) :
  descToSourceString [Assoc node nodeDesc] sm
  = (descText nodeDesc,
     <[node := (0, descLen nodeDesc)]> (foldl record sm (setCalls (descSpans 0 nodeDesc)))).
Proof.
  rewrite descToSourceString_spec.
  rewrite descText_cons, (descSpans_cons 0 _ []), elementSpans_Assoc.
  change (descSpans _ []) with (@nil Span). change (descText []) with (@nil char).
  rewrite !app_nil_r, setCalls_singleton, record_snoc. reflexivity.
Qed.

(** ** Flattening *)

(** X1. What the loop counts. A run of [helper] appends the fragments of the
    description to [source] and adds to [size] the byte length of each
    fragment, measured on its own; when no surrogate pair is split between
    two fragments, [descToSourceString] ends with [size] equal to the byte
    length of the text it returns. *)
Theorem size_tracks_source (current : SrcDesc) (st : FlatState) (sm : SrcRangeMap) :
  source (helper current st) = source st ++ mjoin (fragments current)
  ∧ size (helper current st) = size st + fragmentsLen (fragments current)
  ∧ (noSplit [] (fragments current) = true →
     size (helper current (mkFlatState [] 0 sm))
     = strByteLen (descToSourceString current sm).1).
Proof.
  split; [| split].
  - rewrite helper_spec. cbn [source]. by rewrite descText_fragments_of.
  - by rewrite helper_spec.
  - intros Hclean. rewrite descToSourceString_spec, helper_spec. cbn [size fst].
    rewrite descText_fragments_of. unfold descLen. rewrite fragmentsLen_text by done. lia.
Qed.

Lemma size_tracks_source_witness :
  noSplit [] (fragments example_desc) = true
  ∧ size (helper example_desc (mkFlatState [] 0 ∅)) = 9
  ∧ strByteLen (descToSourceString example_desc ∅).1 = 9.
Proof.
  split; [reflexivity |].
  pose proof (proj2 (proj2 (size_tracks_source example_desc (mkFlatState [] 0 ∅) ∅))
                eq_refl) as Hsize.
  split; [reflexivity | exact (eq_trans (eq_sym Hsize) eq_refl)].
Defined.

(** X2. Wrapping a description in an association entry leaves the text as it
    is and adds to the map, after the entries of the description, the entry
    of the node: from 0, as long as [size] has become, which is the byte
    length of the text when no surrogate pair is split between fragments. *)
Theorem flatten_wrap (node : ASTNode) (nodeDesc : SrcDesc) (sm : SrcRangeMap) :
  let inner := descToSourceString nodeDesc sm in
  descToSourceString [Assoc node nodeDesc] sm
  = (inner.1, <[node := (0, finalSize nodeDesc)]> inner.2)
  ∧ (noSplit [] (fragments nodeDesc) = true → finalSize nodeDesc = strByteLen inner.1).
Proof.
  cbn zeta. split.
  - by rewrite flatten_Assoc, descToSourceString_spec, finalSize_descLen.
  - apply finalSize_text.
Qed.

(** X3. Flattening a concatenation: the text is the two texts one after the
    other, and a node has the range the second description gives it, moved by
    the value [size] reaches on the first, or else whatever flattening the
    first description alone leaves for it. *)
Theorem flatten_app (d1 d2 : SrcDesc) (sm : SrcRangeMap) :
  let first := descToSourceString d1 sm in
  let second := descToSourceString d2 ∅ in
  let both := descToSourceString (d1 ++ d2) sm in
  both.1 = first.1 ++ second.1
  ∧ ∀ node,
      both.2 !! node =
      match second.2 !! node with
      | Some (start, len) => Some (start + finalSize d1, len)
      | None => first.2 !! node
      end.
Proof.
  cbn zeta. rewrite !descToSourceString_spec, finalSize_descLen. cbn [fst snd].
  split; [apply descText_app |].
  intros node. rewrite flatten_calls_app, foldl_app. apply record_lookup_shift.
Qed.



(** X5. Every range that flattening gives to a node of the description has
    a start and a length that are not negative and ends at or before the
    value [size] has reached; when no surrogate pair is split between
    fragments, that is at or before the byte length of the returned text. *)
Theorem ranges_within_text (description : SrcDesc) (sm : SrcRangeMap)
    (node : ASTNode) (start len : Z) :
  node ∈ descNodes description →
  (descToSourceString description sm).2 !! node = Some (start, len) →
  0 ≤ start ∧ 0 ≤ len
  ∧ start + len ≤ finalSize description
  ∧ (noSplit [] (fragments description) = true →
     start + len ≤ strByteLen (descToSourceString description sm).1).
Proof.
  intros Hnode Hmap.
  assert (Hsize : 0 ≤ start ∧ 0 ≤ len ∧ start + len ≤ finalSize description).
  { rewrite descToSourceString_spec in Hmap. cbn [snd] in Hmap.
    apply record_lookup_inv in Hmap as [[Hnot _] | Hcall].
    { by rewrite setCalls_nodes in Hnot. }
    apply elem_of_setCalls in Hcall as (sp & Hin & _ & [= <- <-]).
    apply descSpans_placed, spanPlaced_bounds in Hin. unfold span_end in Hin.
    rewrite finalSize_descLen. unfold descLen. lia. }
  destruct Hsize as (Hstart & Hlen & Hend). repeat split; try done.
  intros Hclean. by rewrite <- (finalSize_text _ sm Hclean).
Qed.

Lemma ranges_within_text_witness :
  nodeB ∈ descNodes example_desc
  ∧ (descToSourceString example_desc ∅).2 !! nodeB = Some (6, 3)
  ∧ noSplit [] (fragments example_desc) = true
  ∧ 6 + 3 ≤ strByteLen (descToSourceString example_desc ∅).1.
Proof.
  assert (Hnode : nodeB ∈ descNodes example_desc).
  { apply (list_elem_of_lookup_2 _ 1%nat). reflexivity. }
  assert (Hmap : (descToSourceString example_desc ∅).2 !! nodeB = Some (6, 3))
    by reflexivity.
  split; [exact Hnode |]. split; [exact Hmap |]. split; [reflexivity |].
  exact (proj2 (proj2 (proj2 (ranges_within_text example_desc ∅ nodeB 6 3 Hnode Hmap)))
           eq_refl).
Defined.

(** X6. The keys of the map after flattening are the keys it had and the
    nodes of the association entries: no entry is ever removed, and nothing
    but those nodes is added. *)
Theorem flatten_dom (description : SrcDesc) (sm : SrcRangeMap) (node : ASTNode) :
  node ∈ dom (descToSourceString description sm).2
  ↔ node ∈ dom sm ∨ node ∈ descNodes description.
Proof.
  rewrite descToSourceString_spec. cbn [snd].
  by rewrite record_dom, setCalls_nodes.
Qed.

(** ** The description builder and [write] *)

Lemma descLoop_plain W this_desc args result :
  forallb isPlain args = true →
  descLoop W this_desc args result = Returns (result ++ (Str <$> omap argText args)).
Proof.
  revert result. induction args as [| arg rest IH]; intros result.
  - intros _. cbn. by rewrite app_nil_r.
  - destruct arg as [| | s | node | value]; cbn [forallb isPlain andb]; try done;
      intros Hrest; cbn [descLoop omap list_omap argText].
    + by apply IH.
    + by apply IH.
    + rewrite (IH _ Hrest), fmap_cons. by rewrite <- app_assoc.
Qed.

Lemma descText_fragments (fragments : list jsString) :
  descText (Str <$> fragments) = mjoin fragments.
Proof.
  induction fragments as [| f fragments IH]; [done |].
  rewrite fmap_cons, descText_cons, IH. reflexivity.
Qed.

Lemma descSpans_fragments (fragments : list jsString) at_ :
  descSpans at_ (Str <$> fragments) = [].
Proof.
  revert at_. induction fragments as [| f fragments IH]; intros at_; [done |].
  rewrite fmap_cons, descSpans_cons. apply IH.
Qed.

Lemma flatten_fragments (fragments : list jsString) (sm : SrcRangeMap) :
  descToSourceString (Str <$> fragments) sm = (mjoin fragments, sm).
Proof.
  by rewrite descToSourceString_spec, descText_fragments, descSpans_fragments.
Qed.

(** X7. Arguments without nodes. When every argument is [null],
    [undefined] or a string, [desc] returns the strings as fragments, in
    order, whatever the registry holds; flattening that description gives the
    strings joined and leaves the source map as it was. *)
Theorem desc_plain_arguments (W : ASTWriter) (fuel : nat) (args : DescArgs)
    (sm : SrcRangeMap) :
  forallb isPlain args = true →
  desc (S fuel) W args = Returns (Str <$> omap argText args)
  ∧ descToSourceString (Str <$> omap argText args) sm = (mjoin (omap argText args), sm).
Proof.
  intros Hplain. split.
  - cbn [desc]. by rewrite descLoop_plain.
  - apply flatten_fragments.
Qed.

Lemma desc_plain_arguments_witness :
  forallb isPlain [ArgString (str "if ("); ArgNull; ArgString (str ")"); ArgUndefined] = true
  ∧ desc 1 example_writer [ArgString (str "if ("); ArgNull; ArgString (str ")"); ArgUndefined]
    = Returns [Str (str "if ("); Str (str ")")]
  ∧ descToSourceString [Str (str "if ("); Str (str ")")] {[nodeA := (0, 3)]}
    = (str "if ()", {[nodeA := (0, 3)]}).
Proof.
  split; [reflexivity |].
  exact (desc_plain_arguments example_writer 0
           [ArgString (str "if ("); ArgNull; ArgString (str ")"); ArgUndefined]
           {[nodeA := (0, 3)]} eq_refl).
Defined.

(** X8. [desc] of two argument lists one after the other is [desc] of the
    first followed by [desc] of the second, the descriptions appended; when
    the first does not return, its outcome is the outcome of the whole and the
    second list is not looked at. *)
Theorem desc_concatenates (W : ASTWriter) (fuel : nat) (args1 args2 : DescArgs) :
  desc (S fuel) W (args1 ++ args2)
  = (built1 ← desc (S fuel) W args1;
     built2 ← desc (S fuel) W args2;
     Returns (built1 ++ built2)).
Proof.
  cbn [desc]. rewrite descLoop_app.
  destruct (descLoop W (desc fuel W) args1 []) as [built1 | e |]; [| done | done].
  apply descLoop_result.
Qed.

(** X9. [write] with the inherited [writeWhole]: when the strategy of the
    root's constructor inherits [writeWhole] and its [writeInner] returns a
    description, [write] returns the text of that description and leaves the
    map that flattening it gives, with the root set to the range from 0 as
    long as [size] has become, which is the byte length of the whole text
    when no surrogate pair is split between fragments. *)
Theorem write_root_range (W : ASTWriter) (fuel : nat) (root : ASTNode)
    (writer : ASTNodeWriter) (inner : SrcDesc) (sm : SrcRangeMap) :
  mapping W !! constructor root = Some writer →
  writeWhole writer = writeWhole_default (writeInner writer) →
  writeInner writer root (desc fuel W) = Returns inner →
  let flat := descToSourceString inner sm in
  write (S fuel) W root (Some sm)
  = (Returns flat.1, <[root := (0, finalSize inner)]> flat.2)
  ∧ (noSplit [] (fragments inner) = true → finalSize inner = strByteLen flat.1).
Proof.
  intros Hwriter Hdefault Hinner. cbn zeta.
  assert (Hdesc : desc (S fuel) W [ArgNode root] = Returns [Assoc root inner]).
  { cbn [desc descLoop]. rewrite Hwriter, Hdefault. unfold writeWhole_default.
    by rewrite Hinner. }
  split; [| apply finalSize_text].
  rewrite write_unfold, Hdesc. cbn [default].
  by rewrite flatten_Assoc, descToSourceString_spec, finalSize_descLen.
Qed.

Lemma write_root_range_witness :
  mapping example_writer !! constructor nodeA = Some IdentifierWriter
  ∧ writeInner IdentifierWriter nodeA (desc 1 example_writer) = Returns [Str (str "foo")]
  ∧ write 2 example_writer nodeA (Some ∅) = (Returns (str "foo"), <[nodeA := (0, 3)]> ∅).
Proof.
  split; [reflexivity |]. split; [reflexivity |].
  exact (proj1 (write_root_range example_writer 1 nodeA IdentifierWriter [Str (str "foo")] ∅
                  eq_refl eq_refl eq_refl)).
Defined.

(** X10. Writing a node again into the map that a first [write] of it left
    gives the same outcome and leaves that map unchanged. *)
Theorem write_again (W : ASTWriter) (fuel : nat) (node : ASTNode) (sm : SrcRangeMap) :
  let first := write fuel W node (Some sm) in
  write fuel W node (Some first.2) = first.
Proof.
  cbn zeta. rewrite !write_unfold. cbv [default from_option id].
  destruct (desc fuel W [ArgNode node]) as [d | e |]; [| done | done].
  cbn [snd]. rewrite !descToSourceString_spec. cbn [fst snd].
  by rewrite record_twice.
Qed.

(** X11. What a strategy throws comes out unchanged: when [writeWhole] of
    the registered strategy throws for a node argument, [desc] throws that
    error, whatever follows the argument, and [write] of the node throws it
    and leaves the source map as it was passed. *)
Theorem strategy_error_propagates (W : ASTWriter) (fuel : nat) (node : ASTNode)
    (writer : ASTNodeWriter) (e : JSError)
    (before after : DescArgs) (built : SrcDesc) (sourceMap1 : option SrcRangeMap) :
  mapping W !! constructor node = Some writer →
  writeWhole writer node (desc fuel W) = Throws e →
  desc (S fuel) W before = Returns built →
  desc (S fuel) W (before ++ ArgNode node :: after) = Throws e
  ∧ write (S fuel) W node sourceMap1 = (Throws e, default ∅ sourceMap1).
Proof.
  intros Hwriter Hthrows Hbefore. split.
  - cbn [desc] in *. rewrite descLoop_app, Hbefore. cbn. by rewrite Hwriter, Hthrows.
  - rewrite write_unfold. cbn [desc descLoop]. by rewrite Hwriter, Hthrows.
Qed.

(** The operand of a binary operation has no strategy: the error about the
    operand is what writing the operation throws. *)
Lemma strategy_error_propagates_witness :
  mapping partial_writer !! constructor nodeX = Some BinaryOperationWriter
  ∧ writeWhole BinaryOperationWriter nodeX (desc 1 partial_writer)
    = Throws (Error (str "Unable to find writer for AST arg: Identifier #2"))
  ∧ write 2 partial_writer nodeX (Some {[nodeB := (1, 1)]})
    = (Throws (Error (str "Unable to find writer for AST arg: Identifier #2")),
       {[nodeB := (1, 1)]}).
Proof.
  split; [reflexivity |]. split; [reflexivity |].
  exact (proj2 (strategy_error_propagates partial_writer 1 nodeX BinaryOperationWriter
                  (Error (str "Unable to find writer for AST arg: Identifier #2"))
                  [] [] [] (Some {[nodeB := (1, 1)]}) eq_refl eq_refl eq_refl)).
Defined.
